(** * BatchCSVtoSQL: a shallow embedding of the two loader scripts

    The repository holds two independent scripts that load a folder of CSV
    files into one SQL Server table:

    - [BatchCSVtoSQL.py] profiles every column (maximum text length and
      nullability), generates a [CREATE TABLE] statement from the profile
      and appends the files chunk by chunk;
    - [BulkCSVtoSQL.py] creates the table from the header of the first
      file alone (or truncates an existing table) and issues one
      [BULK INSERT] per file.

    Python values are embedded as follows.  An [int] is a [Z].  A [str] is
    a [string], one character of the embedding for one code point of the
    Python string, so [String.length] is Python's [len].  A [list] is a
    [list].  The [dict] built by the profiler is an association list in
    insertion order, a [set] is a [gset].  A raised exception is the
    [Raise] of [result]. *)

From Stdlib Require Import Ascii String ZArith Lia.
From stdpp Require Import base decidable option list numbers strings pretty gmap sorting.

Local Open Scope string_scope.
Local Open Scope Z_scope.
Local Open Scope list_scope.

(** ** Python built-ins used by the scripts *)

Module Py.

(** Exceptions the scripts can raise on the paths that are modelled.
    [KeyError] carries the labels that were not found. *)
Inductive exn : Type :=
| KeyError (missing : list string)
| ValueError
| FileNotFoundError.

Inductive result (A : Type) : Type :=
| Ok (x : A)
| Raise (e : exn).
Global Arguments Ok {A} x.
Global Arguments Raise {A} e.

Global Instance result_ret : MRet result := λ A x, Ok x.
Global Instance result_bind : MBind result := λ A B k m,
  match m with Ok x => k x | Raise e => Raise e end.

Definition nl : string := String "010" "".

(** [str(n)] for an [int]. *)
Definition str (n : Z) : string := pretty n.

(** [c.isspace()] on the code points the embedding has: TAB, LF, VT, FF,
    CR, the separators FS to US, SPACE, NEL and NBSP. *)
Definition isspace (c : ascii) : bool :=
  let n := N_of_ascii c in
  ((9 <=? n) && (n <=? 13) || (28 <=? n) && (n <=? 32)
   || (n =? 133) || (n =? 160))%N.

Fixpoint lstrip_by (p : ascii → bool) (s : string) : string :=
  match s with
  | String c s' => if p c then lstrip_by p s' else s
  | EmptyString => EmptyString
  end.

Fixpoint rstrip_by (p : ascii → bool) (s : string) : string :=
  match s with
  | String c s' =>
      match rstrip_by p s' with
      | EmptyString => if p c then EmptyString else String c EmptyString
      | r => String c r
      end
  | EmptyString => EmptyString
  end.

(** [s.strip()] *)
Definition strip (s : string) : string := lstrip_by isspace (rstrip_by isspace s).

(** [s.rstrip("\r\n")] *)
Definition rstrip_crlf (s : string) : string :=
  rstrip_by (λ c, bool_decide (c = "013"%char) || bool_decide (c = "010"%char)) s.

(** [s.split(sep)] for a separator of one character. *)
Fixpoint split (sep : ascii) (s : string) : list string :=
  match s with
  | String c s' =>
      if decide (c = sep) then EmptyString :: split sep s'
      else match split sep s' with
           | f :: fs => String c f :: fs
           | [] => [String c EmptyString]
           end
  | EmptyString => [EmptyString]
  end.

(** [s.replace(c, r)] for a pattern of one character. *)
Fixpoint replace (c : ascii) (r : string) (s : string) : string :=
  match s with
  | String x s' => (if decide (x = c) then r else String x EmptyString) +:+ replace c r s'
  | EmptyString => EmptyString
  end.

(** [sep.join(l)] *)
Fixpoint join (sep : string) (l : list string) : string :=
  match l with
  | [] => ""
  | [x] => x
  | x :: l' => x +:+ sep +:+ join sep l'
  end.

(** [f.readline()] on the text of a file opened in text mode: the text
    up to and including the first line feed. *)
Fixpoint readline (s : string) : string :=
  match s with
  | String c s' =>
      if decide (c = "010"%char) then String c EmptyString else String c (readline s')
  | EmptyString => EmptyString
  end.

(** [s.startswith(pre)] *)
Fixpoint startswith (pre s : string) : bool :=
  match pre, s with
  | EmptyString, _ => true
  | String a pre', String b s' => bool_decide (a = b) && startswith pre' s'
  | String _ _, EmptyString => false
  end.

(** [pat in s] *)
Fixpoint occurs (pat s : string) : bool :=
  startswith pat s ||
  match s with
  | String _ s' => occurs pat s'
  | EmptyString => false
  end.

(** [s.split(sep)] for a separator of one character or more: the pieces
    between the occurrences of [sep], found from the left and not
    overlapping.  [skip] counts the characters of a found separator that
    are still to pass. *)
Fixpoint split_str_go (sep : string) (skip : nat) (s : string) : list string :=
  match s with
  | String c s' =>
      match skip with
      | S n => split_str_go sep n s'
      | O =>
          if startswith sep s
          then EmptyString :: split_str_go sep (String.length sep - 1) s'
          else match split_str_go sep 0 s' with
               | f :: fs => String c f :: fs
               | [] => [String c EmptyString]
               end
      end
  | EmptyString => [EmptyString]
  end.

Definition split_str (sep s : string) : list string := split_str_go sep 0 s.


End Py.

(** ** BatchCSVtoSQL.py *)

Module Batch.
Import Py.

Definition CSV_SEPARATOR : ascii := ","%char.
Definition SCHEMA : string := "dbo".
Definition TABLE : string := "BigCsvTable".
Definition CHUNKSIZE : positive := 200000.
Definition VARCHAR_MAX_THRESHOLD : Z := 4000.
Definition BUCKETS : list Z := [1; 10; 25; 50; 100; 255; 500; 1000; 2000; 4000].

Definition escape_ident (name : string) : string := replace "]" "]]" name.

(** The [for b in BUCKETS] loop of [bucket_size]: the first bucket that
    [max_len] fits in. *)
Fixpoint first_bucket (max_len : Z) (buckets : list Z) : option Z :=
  match buckets with
  | b :: bs => if decide (max_len ≤ b) then Some b else first_bucket max_len bs
  | [] => None
  end.

Definition bucket_size (max_len : Z) : string :=
  if decide (max_len ≤ 0) then "1"
  else if decide (max_len > VARCHAR_MAX_THRESHOLD) then "MAX"
  else match first_bucket max_len BUCKETS with
       | Some b => str b
       | None => str VARCHAR_MAX_THRESHOLD
       end.

(** *** pandas, as far as the script uses it

    A cell of a frame read with [dtype="string"] is a string or [pd.NA];
    a [Series] is a column of cells; a [DataFrame] is a row count (its
    index) and an ordered list of labelled columns. *)
Abbreviation cell := (option string) (only parsing).
Abbreviation Series := (list (option string)) (only parsing).
Record DataFrame : Type := mkFrame {
  df_index : nat;
  df_columns : list (string * Series)
}.

(** The tokens that [read_csv] turns into [pd.NA] under
    [keep_default_na=True] and no [na_values]: pandas' default list.
    Tokens are compared as they stand in the file, untrimmed. *)
Definition NA_VALUES : list string :=
  [""; "#N/A"; "#N/A N/A"; "#NA"; "-1.#IND"; "-1.#QNAN"; "-NaN"; "-nan";
   "1.#IND"; "1.#QNAN"; "<NA>"; "N/A"; "NA"; "NULL"; "NaN"; "None";
   "n/a"; "nan"; "null"].

Definition read_cell (tok : string) : cell :=
  if decide (tok ∈ NA_VALUES) then None else Some tok.

(** A CSV file as the parser tokenises it: the header labels and the
    data rows, each a list of field tokens (blank lines, which the parser
    skips, are not rows).  A row shorter than the header is filled with
    missing fields, which read like empty ones. *)
Record csv_file : Type := mkCsv {
  header : list string;
  rows : list (list string)
}.

(** The files that [pd.read_csv] reads into the frames of [read_csv]
    below: there is a header line, and every data row has at least one
    field and no more fields than the header has labels.  Of other files
    pandas makes something else: a file without header line raises
    [EmptyDataError]; when the first data row has more fields than the
    header, the leading fields of the rows are taken for the index and
    the labels move to the fields that follow; and a later row with more
    fields than the header and the first row raises [ParserError] when it
    is tokenised.  [make_frame] and [read_csv] stand for the parser on
    well-formed files only, and the statements that give the profile or
    the loaded rows of given files take this as a hypothesis. *)
Definition well_formed (f : csv_file) : Prop :=
  header f ≠ [] ∧
  Forall (λ r, (1 ≤ length r ≤ length (header f))%nat) (rows f).

#[export] Instance well_formed_dec (f : csv_file) : Decision (well_formed f) :=
  decide (header f ≠ [] ∧
          Forall (λ r, (1 ≤ length r ≤ length (header f))%nat) (rows f)).

Definition field (j : nat) (row : list string) : string := default "" (row !! j).

Definition make_frame (hdr : list string) (chunk : list (list string)) : DataFrame :=
  {| df_index := length chunk;
     df_columns := imap (λ j c, (c, (λ row, read_cell (field j row)) <$> chunk)) hdr |}.

(** Rows in pieces of [k]; the fuel is the number of rows, which is
    enough for every [k] of at least 1. *)
Fixpoint chunks_go {A} (fuel k : nat) (l : list A) : list (list A) :=
  match fuel, l with
  | S fuel', _ :: _ => take k l :: chunks_go fuel' k (drop k l)
  | _, _ => []
  end.
Definition chunks {A} (k : nat) (l : list A) : list (list A) :=
  chunks_go (length l) k l.

(** [pd.read_csv(path, chunksize=k, dtype="string", keep_default_na=True)]
    as the list of frames the reader yields from a well-formed file.
    pandas rejects a chunk size below 1, hence [positive].  A file
    without data rows yields one empty frame. *)
Definition read_csv (chunksize : positive) (path : csv_file) : list DataFrame :=
  match rows path with
  | [] => [make_frame (header path) []]
  | rs => make_frame (header path) <$> chunks (Pos.to_nat chunksize) rs
  end.

(** [df.columns = [c.strip() for c in df.columns]] *)
Definition strip_columns (df : DataFrame) : DataFrame :=
  {| df_index := df_index df;
     df_columns := (λ cs, (strip cs.1, cs.2)) <$> df_columns df |}.

(** The columns of [df] labelled [col], in frame order. *)
Definition labelled (col : string) (df : DataFrame) : list (string * Series) :=
  filter (λ cs, cs.1 = col) (df_columns df).

(** [s.isna().any()] *)
Definition isna_any (s : Series) : bool := bool_decide (None ∈ s).

(** [s.fillna("").astype(str).str.len()] *)
Definition str_len (s : Series) : list Z :=
  (λ c : cell, Z.of_nat (String.length (default "" c))) <$> s.

(** [int(lengths.max()) if not lengths.empty else 0] *)
Definition lengths_max (lengths : list Z) : Z :=
  match lengths with
  | [] => 0
  | x :: xs => foldr Z.max x xs
  end.

(** [df[columns]]: every requested label must be present; the result
    holds, for each requested label in turn, the columns so labelled. *)
Definition select (df : DataFrame) (columns : list string) : result DataFrame :=
  match filter (λ c, labelled c df = []) columns with
  | [] => Ok {| df_index := df_index df;
                df_columns := c ← columns; labelled c df |}
  | missing => Raise (KeyError missing)
  end.

(** The rows of a frame, as [to_sql] sends them. *)
Definition frame_rows (df : DataFrame) : list (list cell) :=
  (λ i, (λ cs : string * Series, default None (cs.2 !! i)) <$> df_columns df)
    <$> seq 0 (df_index df).

(** *** The profile *)

Record col_stats : Type := mkStats { max_len : Z; nullable : bool }.

(** A [dict] with [str] keys, in insertion order. *)
Definition dict (V : Type) : Type := list (string * V).

(** [d[k] = v] *)
Fixpoint dict_set {V} (k : string) (v : V) (d : dict V) : dict V :=
  match d with
  | [] => [(k, v)]
  | (k', v') :: d' =>
      if decide (k' = k) then (k, v) :: d' else (k', v') :: dict_set k v d'
  end.

(** In-place change of the value stored under an existing key. *)
Definition dict_adjust {V} (k : string) (f : V → V) (d : dict V) : dict V :=
  (λ kv, if decide (kv.1 = k) then (kv.1, f kv.2) else kv) <$> d.

(** [d.get(k)] *)
Fixpoint dict_get {V} (k : string) (d : dict V) : option V :=
  match d with
  | [] => None
  | (k', v) :: d' => if decide (k' = k) then Some v else dict_get k d'
  end.

Definition set_nullable (st : col_stats) : col_stats :=
  {| max_len := max_len st; nullable := true |}.
Definition raise_max_len (m : Z) (st : col_stats) : col_stats :=
  if decide (m > max_len st) then {| max_len := m; nullable := nullable st |} else st.

(** The body of [for col in columns] for one column of one chunk. *)
Definition profile_column (df : DataFrame) (col : string) (stats : dict col_stats)
    : result (dict col_stats) :=
  match labelled col df with
  | [] => Raise (KeyError [col])
  | [(_, s)] =>
      let stats := if isna_any s then dict_adjust col set_nullable stats else stats in
      let m := lengths_max (str_len s) in
      Ok (dict_adjust col (raise_max_len m) stats)
  | _ =>
      (* [df[col]] is a frame; the truth value of [s.isna().any()] is ambiguous *)
      Raise ValueError
  end.

Fixpoint profile_columns (df : DataFrame) (columns : list string) (stats : dict col_stats)
    : result (dict col_stats) :=
  match columns with
  | [] => Ok stats
  | col :: rest => stats ← profile_column df col stats; profile_columns df rest stats
  end.

(** The body of [for df in reader]. *)
Fixpoint profile_frames (frames : list DataFrame) (columns : list string)
    (stats : dict col_stats) : result (dict col_stats) :=
  match frames with
  | [] => Ok stats
  | df :: rest =>
      stats ← profile_columns (strip_columns df) columns stats;
      profile_frames rest columns stats
  end.

Fixpoint profile_files (chunksize : positive) (files : list csv_file)
    (columns : list string) (stats : dict col_stats) : result (dict col_stats) :=
  match files with
  | [] => Ok stats
  | path :: rest =>
      stats ← profile_frames (read_csv chunksize path) columns stats;
      profile_files chunksize rest columns stats
  end.

Definition init_stats (columns : list string) : dict col_stats :=
  foldl (λ d c, dict_set c {| max_len := 0; nullable := false |} d) [] columns.

Definition profile_max_lengths (chunksize : positive) (files : list csv_file)
    (columns : list string) : result (dict col_stats) :=
  profile_files chunksize files columns (init_stats columns).

Definition read_header_columns (first_csv : csv_file) : list string :=
  strip <$> header first_csv.

(** *** Schema generation and load *)

Definition col_line (col : string) (info : col_stats) : string :=
  let size := bucket_size (max_len info) in
  let null_sql := if nullable info then "NULL" else "NOT NULL" in
  "  [" +:+ escape_ident col +:+ "] VARCHAR(" +:+ size +:+ ") " +:+ null_sql.

Definition generate_create_table_sql (stats : dict col_stats) : string :=
  let col_lines := (λ kv, col_line kv.1 kv.2) <$> stats in
  let cols_block := join ("," +:+ nl) col_lines in
  let name := "[" +:+ escape_ident SCHEMA +:+ "].[" +:+ escape_ident TABLE +:+ "]" in
  "IF OBJECT_ID(N'" +:+ name +:+ "', N'U') IS NOT NULL" +:+ nl +:+
  "    DROP TABLE " +:+ name +:+ ";" +:+ nl +:+
  "GO" +:+ nl +:+
  "CREATE TABLE " +:+ name +:+ " (" +:+ nl +:+
  cols_block +:+ nl +:+
  ");".

(** The target table is the list of rows appended to it; [df.to_sql(...,
    if_exists="append")] adds the rows of the frame.  This is [to_sql] on
    a frame whose labels are distinct; a frame that holds two columns
    under one label is refused before any row is sent, so the statements
    about the rows a load adds take distinct canonical names, each the
    trimmed label of one column of the file, as hypotheses. *)
Definition to_sql (df : DataFrame) (table : list (list cell)) : list (list cell) :=
  table ++ frame_rows df.

(** The loops of [load_all_csvs] return the table as it stands when they
    end, together with the exception that ended them, if any. *)
Fixpoint load_frames (frames : list DataFrame) (columns : list string)
    (table : list (list cell)) : list (list cell) * result () :=
  match frames with
  | [] => (table, Ok ())
  | df :: rest =>
      match select (strip_columns df) columns with
      | Ok df' => load_frames rest columns (to_sql df' table)
      | Raise e => (table, Raise e)
      end
  end.

Fixpoint load_all_csvs (chunksize : positive) (files : list csv_file)
    (columns : list string) (table : list (list cell)) : list (list cell) * result () :=
  match files with
  | [] => (table, Ok ())
  | path :: rest =>
      match load_frames (read_csv chunksize path) columns table with
      | (table, Ok _) => load_all_csvs chunksize rest columns table
      | stopped => stopped
      end
  end.

(** *** The run

    [matched] stands for what [glob.glob] finds: the paths that match the
    pattern, each with the file behind it. *)

(** [sorted] on paths. *)
Definition sorted (matched : list (string * csv_file)) : list (string * csv_file) :=
  merge_sort (λ a b, String.le a.1 b.1) matched.

Definition get_csv_files (matched : list (string * csv_file))
    : result (list (string * csv_file)) :=
  let files := sorted matched in
  match files with
  | [] => Raise FileNotFoundError
  | _ => Ok files
  end.

(** The engine of [make_engine]: the statements executed through it and
    the rows [to_sql] has appended through it. *)
Record engine : Type := mkEngine {
  executed : list string;
  table : list (list cell)
}.

(** The statements [drop_and_create_table] executes: the pieces of the
    text between the occurrences of [GO], trimmed, the blank ones left
    out. *)
Definition batches (create_sql : string) : list string :=
  filter (λ b, b ≠ EmptyString) (strip <$> split_str "GO" create_sql).

Definition drop_and_create_table (eng : engine) (create_sql : string) : engine :=
  {| executed := executed eng ++ batches create_sql; table := table eng |}.

(** [main], from the directory listing on. *)
Definition main (matched : list (string * csv_file)) (eng : engine) : engine * result () :=
  match get_csv_files matched with
  | Raise e => (eng, Raise e)
  | Ok files =>
      let columns := read_header_columns (default (mkCsv [] []) (snd <$> head files)) in
      match profile_max_lengths CHUNKSIZE (snd <$> files) columns with
      | Raise e => (eng, Raise e)
      | Ok stats =>
          let create_sql := generate_create_table_sql stats in
          let eng := drop_and_create_table eng create_sql in
          let '(rows, outcome) :=
            load_all_csvs CHUNKSIZE (snd <$> files) columns (table eng) in
          ({| executed := executed eng; table := rows |}, outcome)
      end
  end.


End Batch.

(** ** BulkCSVtoSQL.py *)

Module Bulk.
Import Py.

Definition SCHEMA : string := "dbo".
Definition TABLE : string := "BigCsvTable".
Definition FIELDTERMINATOR : ascii := ","%char.
Definition ROWTERMINATOR : string := "0x0a".
Definition FIRSTROW : Z := 2.
Definition CODEPAGE : option string := None.
Definition DEFAULT_VARCHAR_LEN : Z := 4000.
Definition BATCHSIZE : Z := 50000.
Definition MAXERRORS : Z := 0.
Definition USE_TABLOCK : bool := true.

Definition qident (name : string) : string := "[" +:+ replace "]" "]]" name +:+ "]".
Definition qstr (s : string) : string := "'" +:+ replace "'" "''" s +:+ "'".

(** A [pyodbc] cursor on the target server: the answer the server gives
    to the existence probe, and the statements executed so far, each
    with its parameters. *)
Record cursor : Type := mkCursor {
  table_present : bool;
  executed : list (string * list string)
}.

Definition execute (sql : string) (params : list string) (cur : cursor) : cursor :=
  {| table_present := table_present cur;
     executed := executed cur ++ [(sql, params)] |}.

Definition probe_sql : string :=
  nl +:+ "        SELECT 1" +:+
  nl +:+ "        FROM INFORMATION_SCHEMA.TABLES" +:+
  nl +:+ "        WHERE TABLE_SCHEMA = ? AND TABLE_NAME = ?" +:+
  nl +:+ "        ".

Definition table_exists (cur : cursor) (schema table : string) : bool * cursor :=
  (table_present cur, execute probe_sql [schema; table] cur).

(** [first_csv] is the text of the file as the text-mode reader with
    [encoding="utf-8-sig"] delivers it. *)
Definition read_header_columns (first_csv : string) : result (list string) :=
  let header := rstrip_crlf (readline first_csv) in
  let cols := strip <$> split FIELDTERMINATOR header in
  if bool_decide (cols = []) || bool_decide (Exists (λ c, c = EmptyString) cols)
  then Raise ValueError
  else Ok cols.

(** [f"{col}_{i}"] *)
Definition suffixed (col : string) (i : Z) : string := col +:+ "_" +:+ str i.

(** The loop [while f"{col}_{i}" in seen: i += 1], returning the final
    [i].  It is run with as many steps of fuel as [seen] has names:
    [next_suffix_least] below shows that the value returned is then free
    and that every smaller candidate was taken, so the loop ends there. *)
Fixpoint next_suffix (fuel : nat) (col : string) (seen : gset string) (i : Z) : Z :=
  match fuel with
  | O => i
  | S fuel' =>
      if decide (suffixed col i ∈ seen) then next_suffix fuel' col seen (i + 1) else i
  end.

(** The loop [for c in columns] of [create_table_from_header]. *)
Fixpoint safe_columns_go (columns : list string) (seen : gset string)
    (safe_cols : list string) : list string :=
  match columns with
  | [] => safe_cols
  | c :: rest =>
      let col :=
        if decide (c ∈ seen)
        then suffixed c (next_suffix (size seen) c seen 2)
        else c in
      safe_columns_go rest ({[col]} ∪ seen) (safe_cols ++ [col])
  end.

Definition safe_columns (columns : list string) : list string :=
  safe_columns_go columns ∅ [].

Definition col_def (c : string) : string :=
  qident c +:+ " VARCHAR(" +:+ str DEFAULT_VARCHAR_LEN +:+ ") NULL".

Definition create_table_sql (schema table : string) (safe_cols : list string) : string :=
  let col_defs := join ("," +:+ nl +:+ "  ") (col_def <$> safe_cols) in
  "CREATE TABLE " +:+ qident schema +:+ "." +:+ qident table +:+ " (" +:+ nl +:+
  "  " +:+ col_defs +:+ nl +:+ ");".

Definition create_table_from_header (cur : cursor) (schema table : string)
    (columns : list string) : cursor :=
  execute (create_table_sql schema table (safe_columns columns)) [] cur.

Definition truncate_sql (schema table : string) : string :=
  "TRUNCATE TABLE " +:+ qident schema +:+ "." +:+ qident table +:+ ";".

Definition truncate_table (cur : cursor) (schema table : string) : cursor :=
  execute (truncate_sql schema table) [] cur.

Definition bulk_insert_sql (schema table path : string) : string :=
  let opts :=
    (["FIRSTROW = " +:+ str FIRSTROW;
     "FIELDTERMINATOR = " +:+ qstr (String FIELDTERMINATOR EmptyString);
     "ROWTERMINATOR = " +:+ qstr ROWTERMINATOR;
     "BATCHSIZE = " +:+ str BATCHSIZE;
     "MAXERRORS = " +:+ str MAXERRORS;
     "KEEPNULLS"]
    ++ (if USE_TABLOCK then ["TABLOCK"] else [])
    ++ (match CODEPAGE with Some cp => ["CODEPAGE = " +:+ qstr cp] | None => [] end))%list in
  let opt_block := join ("," +:+ nl +:+ "    ") opts in
  nl +:+ "    BULK INSERT " +:+ qident schema +:+ "." +:+ qident table +:+
  nl +:+ "    FROM " +:+ qstr path +:+
  nl +:+ "    WITH (" +:+
  nl +:+ "        " +:+ opt_block +:+
  nl +:+ "    );" +:+
  nl +:+ "    ".

Definition bulk_insert_file (cur : cursor) (schema table path : string) : cursor :=
  execute (bulk_insert_sql schema table path) [] cur.

(** The table lifecycle branch of [main]. *)
Definition prepare_table (cur : cursor) (files : list (string * string))
    : cursor * result () :=
  let '(present, cur) := table_exists cur SCHEMA TABLE in
  if present then (truncate_table cur SCHEMA TABLE, Ok ())
  else
    match read_header_columns (default EmptyString (snd <$> head files)) with
    | Ok cols => (create_table_from_header cur SCHEMA TABLE cols, Ok ())
    | Raise e => (cur, Raise e)
    end.

(** [main], from the manifest on: [files] is the sorted list of matched
    paths, each with the text of its file, and [cur] the cursor of the
    fresh connection. *)
Definition main (files : list (string * string)) (cur : cursor) : cursor * result () :=
  match files with
  | [] => (cur, Raise FileNotFoundError)
  | _ =>
      match prepare_table cur files with
      | (cur, Ok _) =>
          (foldl (λ cur fpath, bulk_insert_file cur SCHEMA TABLE fpath.1) cur files, Ok ())
      | stopped => stopped
      end
  end.

End Bulk.


(** ** Vocabulary of the specification *)

Module Spec.
Import Py Batch.

(** A column width: a fixed number of characters, or unbounded.  The
    sizer returns its text, [str(b)] or ["MAX"]. *)
Inductive Width : Type :=
| Fixed (n : Z)
| Unbounded.

Definition width_text (w : Width) : string :=
  match w with
  | Fixed n => str n
  | Unbounded => "MAX"
  end.

(** The total order on widths in which [Unbounded] is greatest. *)
Definition width_le (a b : Width) : Prop :=
  match a, b with
  | Fixed x, Fixed y => x ≤ y
  | _, Unbounded => True
  | Unbounded, Fixed _ => False
  end.

(** The order read on the texts the sizer returns. *)
Definition size_le (s1 s2 : string) : Prop :=
  ∃ a b, s1 = width_text a ∧ s2 = width_text b ∧ width_le a b.

(** The width whose text [bucket_size] returns. *)
Definition bucket_width (max_len : Z) : Width :=
  if decide (max_len ≤ 0) then Fixed 1
  else if decide (max_len > Batch.VARCHAR_MAX_THRESHOLD) then Unbounded
  else match Batch.first_bucket max_len Batch.BUCKETS with
       | Some b => Fixed b
       | None => Fixed Batch.VARCHAR_MAX_THRESHOLD
       end.

(** [b] is the smallest bucket of [buckets] that satisfies [P]. *)
Definition smallest_such (P : Z → Prop) (buckets : list Z) (b : Z) : Prop :=
  b ∈ buckets ∧ P b ∧ ∀ b', b' ∈ buckets → P b' → b ≤ b'.

(** Two runs end alike: both raise, or both return the same value. *)
Definition same_outcome {A} (r1 r2 : result A) : Prop :=
  match r1, r2 with
  | Ok a, Ok b => a = b
  | Raise _, Raise _ => True
  | _, _ => False
  end.

(** What one column of one chunk does to the entry of its column: the
    two conditional assignments of the loop body, in their order. *)
Definition absorb (s : Series) (st : Batch.col_stats) : Batch.col_stats :=
  Batch.raise_max_len (Batch.lengths_max (Batch.str_len s))
    (if Batch.isna_any s then Batch.set_nullable st else st).

Definition upd (stats : Batch.dict Batch.col_stats) (u : string * Series)
    : Batch.dict Batch.col_stats :=
  Batch.dict_adjust u.1 (absorb u.2) stats.

(** The columns one chunk contributes, in the order of the canonical
    column list, or the exception the chunk raises. *)
Fixpoint updates (df : Batch.DataFrame) (columns : list string)
    : result (list (string * Series)) :=
  match columns with
  | [] => Ok []
  | col :: rest =>
      match Batch.labelled col df with
      | [] => Raise (KeyError [col])
      | [(_, s)] => us ← updates df rest; Ok ((col, s) :: us)
      | _ => Raise ValueError
      end
  end.

Fixpoint plan (frames : list Batch.DataFrame) (columns : list string)
    : result (list (string * Series)) :=
  match frames with
  | [] => Ok []
  | df :: rest =>
      us ← updates (Batch.strip_columns df) columns;
      us' ← plan rest columns;
      Ok (us ++ us')
  end.

(** Column [j] of a run of rows, as the parser delivers it. *)
Definition column (j : nat) (chunk : list (list string)) : Series :=
  (λ row, Batch.read_cell (Batch.field j row)) <$> chunk.

(** The positions, counted from [o], of the header labels that are [col]
    once trimmed. *)
Fixpoint positions_from (o : nat) (col : string) (hdr : list string) : list nat :=
  match hdr with
  | [] => []
  | c :: hdr' =>
      if decide (strip c = col) then o :: positions_from (S o) col hdr'
      else positions_from (S o) col hdr'
  end.

(** Where each canonical column sits in a file, or the exception every
    chunk of the file raises. *)
Fixpoint locate (hdr columns : list string) : result (list (string * nat)) :=
  match columns with
  | [] => Ok []
  | col :: rest =>
      match positions_from 0 col hdr with
      | [] => Raise (KeyError [col])
      | [j] => js ← locate hdr rest; Ok ((col, j) :: js)
      | _ => Raise ValueError
      end
  end.

Definition contributions (js : list (string * nat)) (chunk : list (list string))
    : list (string * Series) :=
  (λ cj, (cj.1, column cj.2 chunk)) <$> js.

(** What a whole file contributes to the profile. *)
Definition file_contributions (columns : list string) (f : Batch.csv_file)
    : list (string * Series) :=
  match locate (Batch.header f) columns with
  | Ok js => contributions js (Batch.rows f)
  | Raise _ => []
  end.

(** A file carries the canonical columns when each is the trimmed label
    of exactly one of its columns. *)
Definition carries (columns : list string) (f : Batch.csv_file) : Prop :=
  ∀ c, c ∈ columns → ∃ j, positions_from 0 c (Batch.header f) = [j].

(** The field tokens of the column of [f] labelled [col]. *)
Definition tokens_of (col : string) (f : Batch.csv_file) : list string :=
  match positions_from 0 col (Batch.header f) with
  | [j] => Batch.field j <$> Batch.rows f
  | _ => []
  end.

(** A token is read as missing when it is one of the default NA tokens,
    the empty token among them; tokens are not trimmed first. *)
Definition absent (tok : string) : bool := bool_decide (tok ∈ Batch.NA_VALUES).

(** What a token contributes to the width of its column. *)
Definition token_width (tok : string) : Z :=
  if absent tok then 0 else Z.of_nat (String.length tok).

(** The [BULK INSERT] statements of a manifest, one per file, in order. *)
Definition bulk_inserts (files : list (string * string)) : list (string * list string) :=
  (λ fpath, (Bulk.bulk_insert_sql Bulk.SCHEMA Bulk.TABLE fpath.1, [])) <$> files.

(** The rule by which the header-only path names a column [c] that comes
    after the output names [earlier]: [c] itself when it is free,
    otherwise [c] with the least suffix from 2 on that is free. *)
Definition renamed (earlier : list string) (c name : string) : Prop :=
  if decide (c ∈ earlier) then
    ∃ i, 2 ≤ i ∧ name = Bulk.suffixed c i ∧ (name ∉ earlier) ∧
         ∀ j, 2 ≤ j < i → Bulk.suffixed c j ∈ earlier
  else name = c.

(** The fields of a row taken in the order [σ] gives. *)
Definition pick (σ : list nat) (row : list string) : list string :=
  (λ i, Batch.field i row) <$> σ.

(** The file [f] with its columns, header and data alike, in the order
    [σ] gives. *)
Definition permute_columns (σ : list nat) (f : Batch.csv_file) : Batch.csv_file :=
  {| Batch.header := pick σ (Batch.header f);
     Batch.rows := pick σ <$> Batch.rows f |}.

(** Two frames with as many rows and, under every label, the same
    columns once the labels are trimmed. *)
Definition alike (df1 df2 : Batch.DataFrame) : Prop :=
  Batch.df_index df1 = Batch.df_index df2 ∧
  ∀ c, Batch.labelled c (Batch.strip_columns df1)
       = Batch.labelled c (Batch.strip_columns df2).

(** Reading back a delimited SQL token, as the server does: [s] is the
    text after the opening delimiter; a doubled closing delimiter stands
    for one such character, a single one ends the token.  The result is
    the token and the text that follows it. *)
Fixpoint read_delimited (close : ascii) (s : string) : option (string * string) :=
  match s with
  | EmptyString => None
  | String x s' =>
      if decide (x = close) then
        match s' with
        | String y s'' =>
            if decide (y = close)
            then (λ r, (String close r.1, r.2)) <$> read_delimited close s''
            else Some (EmptyString, s')
        | EmptyString => Some (EmptyString, EmptyString)
        end
      else (λ r, (String x r.1, r.2)) <$> read_delimited close s'
  end.

(** A bracketed identifier [[...]] and a quoted literal ['...'] at the
    head of a text. *)
Definition read_bracketed (s : string) : option (string * string) :=
  match s with
  | String x s' => if decide (x = "["%char) then read_delimited "]" s' else None
  | EmptyString => None
  end.

Definition read_quoted (s : string) : option (string * string) :=
  match s with
  | String x s' => if decide (x = "'"%char) then read_delimited "'" s' else None
  | EmptyString => None
  end.

Definition starts_with (c : ascii) (s : string) : Prop := ∃ s', s = String c s'.


(** The characters of a string. *)
Fixpoint chars (s : string) : list ascii :=
  match s with
  | EmptyString => []
  | String c s' => c :: chars s'
  end.


(** What [df[columns]] keeps of a file: the positions of the kept
    columns, in the order of the canonical list; the canonical columns the
    file lacks; and a row of the file cut to the kept positions. *)
Definition aligned (hdr columns : list string) : list nat :=
  columns ≫= (λ c, positions_from 0 c hdr).

Definition lacking (hdr columns : list string) : list string :=
  filter (λ c, positions_from 0 c hdr = []) columns.

Definition realign (js : list nat) (row : list string) : list cell :=
  (λ j, read_cell (field j row)) <$> js.

(** The rows a whole file adds to the table. *)
Definition file_rows (columns : list string) (f : csv_file) : list (list cell) :=
  realign (aligned (header f) columns) <$> rows f.

(** The file [f] without the columns that the canonical header lacks: of
    header and rows alike, the fields at the positions of the canonical
    columns, in canonical order. *)
Definition canonical_part (columns : list string) (f : csv_file) : csv_file :=
  permute_columns (aligned (header f) columns) f.


(** A profile entry only grows: the width does not shrink and a column
    once nullable stays so. *)
Definition grows (a b : col_stats) : Prop :=
  max_len a ≤ max_len b ∧ (nullable a = true → nullable b = true).

(** What the corpus holds in the column [col]: the greatest width of a
    token, and whether a token is read as missing. *)
Definition column_summary (files : list csv_file) (col : string) : col_stats :=
  {| max_len := foldr Z.max 0 (token_width <$> files ≫= tokens_of col);
     nullable := existsb absent (files ≫= tokens_of col) |}.


(** A scan for [GO]: [prevG] tells whether the character before the
    text is a [G]; the result is [None] when [GO] is met, and otherwise
    whether the text read so far ends with a [G]. *)
Fixpoint scan_GO (prevG : bool) (s : string) : option bool :=
  match s with
  | EmptyString => Some prevG
  | String c s' =>
      if prevG && bool_decide (c = "O"%char) then None
      else scan_GO (bool_decide (c = "G"%char)) s'
  end.

(** The two statements of the generated text. *)
Definition drop_statement : string :=
  "IF OBJECT_ID(N'[dbo].[BigCsvTable]', N'U') IS NOT NULL" +:+ nl +:+
  "    DROP TABLE [dbo].[BigCsvTable];".

Definition create_statement (stats : dict col_stats) : string :=
  "CREATE TABLE [dbo].[BigCsvTable] (" +:+ nl +:+
  join ("," +:+ nl) ((λ kv, col_line kv.1 kv.2) <$> stats) +:+ nl +:+ ");".


End Spec.

(** ** The bucket sizer *)

Section bucket_sizer.
Import Py Batch Spec.

Lemma first_bucket_Some w bs b :
  first_bucket w bs = Some b →
  ∃ skipped rest, bs = skipped ++ b :: rest ∧ w ≤ b ∧ Forall (λ b', b' < w) skipped.
Proof.
  induction bs as [|b0 bs IH]; simpl; [done|].
  case_decide as Hle.
  - intros [= ->]. exists [], bs. by repeat split.
  - intros (skipped & rest & -> & ? & ?)%IH.
    exists (b0 :: skipped), rest. repeat split; [done|].
    constructor; [lia|done].
Qed.

Lemma first_bucket_None w bs :
  first_bucket w bs = None → Forall (λ b, b < w) bs.
Proof.
  induction bs as [|b0 bs IH]; simpl; [by constructor|].
  case_decide; [done|]. intros ?%IH. constructor; [lia|done].
Qed.

(** In an ascending list the first bucket that fits is the smallest one. *)
Lemma first_bucket_smallest w bs b :
  StronglySorted Z.le bs →
  first_bucket w bs = Some b → smallest_such (λ b', w ≤ b') bs b.
Proof.
  intros Hsorted (skipped & rest & -> & Hb & Hsk)%first_bucket_Some.
  split; [set_solver|]. split; [done|].
  intros b' Hin Hle.
  apply elem_of_app in Hin as [Hin|Hin].
  - rewrite Forall_forall in Hsk. specialize (Hsk _ Hin). lia.
  - apply elem_of_cons in Hin as [->|Hin]; [lia|].
    apply StronglySorted_app in Hsorted as (_ & _ & Hsorted).
    apply StronglySorted_cons in Hsorted as [Hall _].
    rewrite Forall_forall in Hall. by apply Hall.
Qed.

Lemma BUCKETS_ascending : StronglySorted Z.le BUCKETS.
Proof. unfold BUCKETS. repeat constructor; lia. Qed.

Lemma BUCKETS_smallest : smallest_such (λ _, True) BUCKETS 1.
Proof.
  split; [set_solver|]. split; [done|].
  intros b' Hin _. unfold BUCKETS in Hin.
  repeat (apply elem_of_cons in Hin as [->|Hin]; [lia|]).
  by apply elem_of_nil in Hin.
Qed.

(** C2. For every integer width: a width of 0 or less gets the smallest
    configured bucket, which is not zero; a width above the threshold gets
    the unbounded sentinel [MAX]; any other width gets the smallest bucket
    of the ascending list that is at least the width, or the threshold
    itself when no bucket is. *)
Theorem bucket_size_rules (w : Z) :
  (w ≤ 0 →
     ∃ b, smallest_such (λ _, True) BUCKETS b ∧ b ≠ 0 ∧ bucket_size w = str b) ∧
  (w > VARCHAR_MAX_THRESHOLD → bucket_size w = width_text Unbounded) ∧
  (0 < w ≤ VARCHAR_MAX_THRESHOLD →
     (∃ b, smallest_such (λ b', w ≤ b') BUCKETS b ∧ bucket_size w = str b)
     ∨ ((∀ b, b ∈ BUCKETS → b < w) ∧ bucket_size w = str VARCHAR_MAX_THRESHOLD)).
Proof.
  unfold bucket_size. split; [|split].
  - intros Hw. exists 1. split; [apply BUCKETS_smallest|].
    split; [done|]. by rewrite decide_True.
  - intros Hw. rewrite decide_False by (unfold VARCHAR_MAX_THRESHOLD in *; lia).
    by rewrite decide_True.
  - intros [Hpos Hle]. rewrite !decide_False by lia.
    destruct (first_bucket w BUCKETS) as [b|] eqn:Hfirst.
    + left. exists b. split; [|done].
      by apply first_bucket_smallest; [apply BUCKETS_ascending|].
    + right. split; [|done].
      apply first_bucket_None in Hfirst. by rewrite Forall_forall in Hfirst.
Qed.

Lemma bucket_size_rules_witness :
  (∃ b, smallest_such (λ _, True) BUCKETS b ∧ b ≠ 0 ∧ bucket_size (-3) = str b) ∧
  bucket_size 4001 = width_text Unbounded ∧
  ((∃ b, smallest_such (λ b', 11 ≤ b') BUCKETS b ∧ bucket_size 11 = str b)
   ∨ ((∀ b, b ∈ BUCKETS → b < 11) ∧ bucket_size 11 = str VARCHAR_MAX_THRESHOLD)).
Proof.
  split; [|split].
  - apply (bucket_size_rules (-3)). lia.
  - apply (bucket_size_rules 4001). reflexivity.
  - apply (bucket_size_rules 11). unfold VARCHAR_MAX_THRESHOLD. lia.
Defined.

Lemma pretty_N_go_not_M x s :
  (∀ t, s ≠ String "M" t) → ∀ t, pretty_N_go x s ≠ String "M" t.
Proof.
  revert s. induction (N.lt_wf_0 x) as [x _ IH]; intros s Hs t.
  destruct (decide (x = 0)%N) as [->|Hx]; [by rewrite pretty_N_go_0|].
  rewrite pretty_N_go_step by lia.
  apply IH; [apply N.div_lt; lia|].
  intros t'. unfold pretty_N_char. by repeat case_match.
Qed.

Lemma str_not_MAX n : str n ≠ "MAX".
Proof.
  unfold str, pretty, pretty_Z. destruct n as [|p|p]; [done| |done].
  unfold pretty, pretty_positive, pretty, pretty_N.
  rewrite decide_False by done. by apply pretty_N_go_not_M.
Qed.

(** The text of a width determines the width. *)
Lemma width_text_inj : Inj (=) (=) width_text.
Proof.
  intros [n|] [m|] Heq; simpl in Heq.
  - f_equal. by apply (inj pretty).
  - by apply str_not_MAX in Heq.
  - symmetry in Heq. by apply str_not_MAX in Heq.
  - done.
Qed.

Lemma bucket_size_width w : bucket_size w = width_text (bucket_width w).
Proof.
  unfold bucket_size, bucket_width. repeat case_decide; try done.
  by destruct (first_bucket w BUCKETS).
Qed.

Lemma bucket_width_mono w1 w2 : w1 ≤ w2 → width_le (bucket_width w1) (bucket_width w2).
Proof.
  intros Hle. unfold bucket_width, VARCHAR_MAX_THRESHOLD, BUCKETS, first_bucket.
  repeat case_decide; simpl; lia.
Qed.

(** C3. The sizer is monotonic non-decreasing in the order on widths in
    which the unbounded sentinel is greatest, and widths 0 and -1 both get
    the smallest bucket. *)
Theorem bucket_size_monotonic (w1 w2 : Z) :
  w1 ≤ w2 →
  size_le (bucket_size w1) (bucket_size w2) ∧
  ∃ b, smallest_such (λ _, True) BUCKETS b ∧
       bucket_size 0 = width_text (Fixed b) ∧ bucket_size (-1) = width_text (Fixed b).
Proof.
  intros Hle. split.
  - exists (bucket_width w1), (bucket_width w2).
    rewrite <-!bucket_size_width. split; [done|]. split; [done|].
    by apply bucket_width_mono.
  - exists 1. split; [apply BUCKETS_smallest|]. done.
Qed.

Lemma bucket_size_monotonic_witness :
  size_le (bucket_size 9) (bucket_size 4001) ∧
  ∃ b, smallest_such (λ _, True) BUCKETS b ∧
       bucket_size 0 = width_text (Fixed b) ∧ bucket_size (-1) = width_text (Fixed b).
Proof. apply (bucket_size_monotonic 9 4001). lia. Defined.

End bucket_sizer.

(** ** The streaming profiler *)

Section profiler.
Import Py Batch Spec.

Lemma dict_adjust_compose {V} k (f g : V → V) (d : dict V) :
  dict_adjust k f (dict_adjust k g d) = dict_adjust k (f ∘ g) d.
Proof.
  unfold dict_adjust. rewrite <-list_fmap_compose. apply list_fmap_ext.
  intros _ [k' v] _. simpl. destruct (decide (k' = k)); simpl.
  - by rewrite decide_True.
  - by rewrite decide_False.
Qed.

Lemma dict_adjust_comm {V} k1 k2 (f g : V → V) (d : dict V) :
  (∀ v, f (g v) = g (f v)) →
  dict_adjust k1 f (dict_adjust k2 g d) = dict_adjust k2 g (dict_adjust k1 f d).
Proof.
  intros Hfg. unfold dict_adjust. rewrite <-!list_fmap_compose. apply list_fmap_ext.
  intros _ [k' v] _. simpl.
  destruct (decide (k' = k1)), (decide (k' = k2)); simpl;
    repeat (first [rewrite decide_True by done | rewrite decide_False by done]; simpl);
    by rewrite ?Hfg.
Qed.

Lemma profile_column_upd df col stats :
  profile_column df col stats =
  match labelled col df with
  | [] => Raise (KeyError [col])
  | [(_, s)] => Ok (upd stats (col, s))
  | _ => Raise ValueError
  end.
Proof.
  unfold profile_column, upd, absorb.
  destruct (labelled col df) as [|[l s] [|??]]; try done.
  simpl. f_equal. destruct (isna_any s); [|done].
  rewrite dict_adjust_compose. done.
Qed.

Lemma profile_columns_updates df cols stats :
  profile_columns df cols stats = (us ← updates df cols; Ok (foldl upd stats us)).
Proof.
  revert stats. induction cols as [|col cols IH]; intros stats; simpl; [done|].
  rewrite profile_column_upd.
  destruct (labelled col df) as [|[l s] [|??]]; try done.
  simpl. rewrite IH. by destruct (updates df cols).
Qed.

Lemma profile_frames_plan frames cols stats :
  profile_frames frames cols stats = (us ← plan frames cols; Ok (foldl upd stats us)).
Proof.
  revert stats. induction frames as [|df frames IH]; intros stats; simpl; [done|].
  rewrite profile_columns_updates.
  destruct (updates (strip_columns df) cols) as [us|e]; simpl; [|done].
  rewrite IH. destruct (plan frames cols) as [us'|e]; simpl; [|done].
  by rewrite foldl_app.
Qed.

(** *** The reduction: maximum on lengths, disjunction on nullness *)

Lemma str_len_nonneg s : Forall (λ n, 0 ≤ n) (str_len s).
Proof. unfold str_len. apply Forall_fmap, Forall_true. intros c. simpl. lia. Qed.

Lemma lengths_max_foldr l :
  Forall (λ n, 0 ≤ n) l → lengths_max l = foldr Z.max 0 l.
Proof.
  destruct l as [|x xs]; [done|]. simpl.
  intros [Hx Hxs]%Forall_cons.
  induction Hxs as [|y ys Hy _ IH]; simpl; lia.
Qed.

Lemma foldr_max_app (l1 l2 : list Z) :
  foldr Z.max 0 (l1 ++ l2) = Z.max (foldr Z.max 0 l1) (foldr Z.max 0 l2).
Proof.
  assert (0 ≤ foldr Z.max 0 l2) by (induction l2; simpl; lia).
  induction l1; simpl; lia.
Qed.

Lemma isna_any_app s1 s2 : isna_any (s1 ++ s2) = isna_any s1 || isna_any s2.
Proof.
  unfold isna_any. rewrite <-bool_decide_or. apply bool_decide_ext, elem_of_app.
Qed.

Lemma absorb_spec s st :
  absorb s st =
  {| max_len := Z.max (max_len st) (foldr Z.max 0 (str_len s));
     nullable := nullable st || isna_any s |}.
Proof.
  unfold absorb, raise_max_len, set_nullable.
  rewrite lengths_max_foldr by apply str_len_nonneg.
  destruct st as [m n], (isna_any s); simpl;
    case_decide; f_equal; try lia; by destruct n.
Qed.

Lemma absorb_comm s1 s2 st : absorb s1 (absorb s2 st) = absorb s2 (absorb s1 st).
Proof.
  rewrite !absorb_spec. simpl. f_equal; [lia|].
  by destruct (nullable st), (isna_any s1), (isna_any s2).
Qed.

Lemma absorb_app s1 s2 st : absorb s2 (absorb s1 st) = absorb (s1 ++ s2) st.
Proof.
  rewrite !absorb_spec. simpl. unfold str_len.
  rewrite fmap_app, foldr_max_app, isna_any_app. f_equal; [lia|].
  by destruct (nullable st), (isna_any s1), (isna_any s2).
Qed.

Lemma upd_comm stats u1 u2 : upd (upd stats u1) u2 = upd (upd stats u2) u1.
Proof. unfold upd. apply dict_adjust_comm. intros st. apply absorb_comm. Qed.

Lemma upd_app stats c s1 s2 : upd (upd stats (c, s1)) (c, s2) = upd stats (c, s1 ++ s2).
Proof.
  unfold upd. simpl. rewrite dict_adjust_compose. unfold dict_adjust.
  apply list_fmap_ext. intros _ [k v] _. simpl.
  case_decide; [|done]. by rewrite absorb_app.
Qed.

(** Folding the same contributions in another order gives the same
    profile. *)
Lemma foldl_upd_perm us us' stats :
  us ≡ₚ us' → foldl upd stats us = foldl upd stats us'.
Proof.
  intros Hperm. revert stats.
  induction Hperm as [|u us us' _ IH|u1 u2 us|us1 us2 us3 _ IH1 _ IH2];
    intros stats; simpl.
  - done.
  - apply IH.
  - by rewrite upd_comm.
  - by rewrite IH1.
Qed.

(** *** Chunks of one file *)

Lemma labelled_make_frame_from o col hdr chunk :
  filter (λ cs : string * Series, cs.1 = col)
    ((λ cs, (strip cs.1, cs.2)) <$> imap (λ j c, (c, column (o + j) chunk)) hdr)
  = (λ j, (col, column j chunk)) <$> positions_from o col hdr.
Proof.
  revert o. induction hdr as [|c hdr IH]; intros o; [done|].
  simpl. rewrite filter_cons. simpl.
  rewrite (imap_ext _ (λ j c, (c, column (S o + j) chunk)))
    by (intros; simpl; do 2 f_equal; lia).
  rewrite IH, Nat.add_0_r.
  destruct (decide (strip c = col)) as [->|]; done.
Qed.

Lemma labelled_make_frame col hdr chunk :
  labelled col (strip_columns (make_frame hdr chunk))
  = (λ j, (col, column j chunk)) <$> positions_from 0 col hdr.
Proof. apply (labelled_make_frame_from 0). Qed.

Lemma updates_make_frame hdr chunk cols :
  updates (strip_columns (make_frame hdr chunk)) cols =
  match locate hdr cols with
  | Ok js => Ok (contributions js chunk)
  | Raise e => Raise e
  end.
Proof.
  induction cols as [|col cols IH]; simpl; [done|].
  rewrite labelled_make_frame.
  destruct (positions_from 0 col hdr) as [|j [|??]]; simpl; try done.
  rewrite IH. by destruct (locate hdr cols).
Qed.

Lemma column_app j c1 c2 : column j (c1 ++ c2) = column j c1 ++ column j c2.
Proof. apply fmap_app. Qed.

(** Two consecutive chunks contribute what their concatenation does. *)
Lemma contributions_merge js c1 c2 stats :
  foldl upd stats (contributions js c1 ++ contributions js c2)
  = foldl upd stats (contributions js (c1 ++ c2)).
Proof.
  revert stats. induction js as [|[c j] js IH]; intros stats; [done|].
  unfold contributions in *. simpl.
  rewrite (foldl_upd_perm _
    ((c, column j c2) :: ((λ cj, (cj.1, column cj.2 c1)) <$> js)
       ++ ((λ cj, (cj.1, column cj.2 c2)) <$> js)))
    by (by rewrite <-Permutation_middle).
  simpl. by rewrite upd_app, IH, column_app.
Qed.

Lemma contributions_concat js c cs stats :
  foldl upd stats (mjoin ((contributions js) <$> c :: cs))
  = foldl upd stats (contributions js (mjoin (c :: cs))).
Proof.
  revert c stats. induction cs as [|c' cs IH]; intros c stats.
  - simpl. by rewrite !app_nil_r.
  - change (mjoin (contributions js <$> c :: c' :: cs))
      with (contributions js c ++ mjoin (contributions js <$> c' :: cs)).
    rewrite foldl_app, IH, <-foldl_app, contributions_merge. done.
Qed.

Lemma plan_make_frames hdr c cs cols :
  plan (make_frame hdr <$> c :: cs) cols =
  match locate hdr cols with
  | Ok js => Ok (mjoin (contributions js <$> c :: cs))
  | Raise e => Raise e
  end.
Proof.
  revert c. induction cs as [|c' cs IH]; intros c.
  - simpl. rewrite updates_make_frame. by destruct (locate hdr cols).
  - change (plan (make_frame hdr <$> c :: c' :: cs) cols)
      with (us ← updates (strip_columns (make_frame hdr c)) cols;
            us' ← plan (make_frame hdr <$> c' :: cs) cols; Ok (us ++ us')).
    rewrite updates_make_frame, IH. by destruct (locate hdr cols).
Qed.

Lemma chunks_go_concat {A} fuel k (l : list A) :
  (1 ≤ k)%nat → (length l ≤ fuel)%nat → mjoin (chunks_go fuel k l) = l.
Proof.
  intros Hk. revert l. induction fuel as [|fuel IH]; intros l Hlen.
  - destruct l; [done|]. simpl in Hlen. lia.
  - destruct l as [|x l]; [done|].
    change (chunks_go (S fuel) k (x :: l))
      with (take k (x :: l) :: chunks_go fuel k (drop k (x :: l))).
    simpl mjoin. rewrite IH; [apply take_drop|].
    rewrite length_drop. simpl in *. lia.
Qed.

(** Every row of the file is in exactly one chunk, in file order. *)
Lemma chunks_concat {A} (k : positive) (l : list A) :
  mjoin (chunks (Pos.to_nat k) l) = l.
Proof. apply chunks_go_concat; lia. Qed.

Lemma chunks_cons {A} k (x : A) l : ∃ c cs, chunks k (x :: l) = c :: cs.
Proof. by eexists _, _. Qed.

(** One file, read in chunks of any size, does to the profile what the
    file read in one piece does. *)
Lemma profile_frames_read_csv k path cols stats :
  profile_frames (read_csv k path) cols stats =
  match locate (header path) cols with
  | Ok js => Ok (foldl upd stats (contributions js (rows path)))
  | Raise e => Raise e
  end.
Proof.
  rewrite profile_frames_plan. unfold read_csv.
  destruct (rows path) as [|r rs] eqn:Hrows.
  - simpl. rewrite updates_make_frame.
    destruct (locate (header path) cols); simpl; [|done].
    by rewrite app_nil_r.
  - destruct (chunks_cons (Pos.to_nat k) r rs) as (c & cs & Hchunks).
    rewrite Hchunks, plan_make_frames.
    destruct (locate (header path) cols) as [js|e]; [|done].
    unfold mbind, result_bind.
    by rewrite contributions_concat, <-Hchunks, chunks_concat.
Qed.

Lemma profile_files_chunksize k1 k2 files cols stats :
  profile_files k1 files cols stats = profile_files k2 files cols stats.
Proof.
  revert stats. induction files as [|path files IH]; intros stats; simpl; [done|].
  rewrite !profile_frames_read_csv.
  destruct (locate (header path) cols); simpl; [apply IH|done].
Qed.

(** *** Chunks in any order *)

Lemma profile_frames_app fr1 fr2 cols stats :
  profile_frames (fr1 ++ fr2) cols stats
  = (stats' ← profile_frames fr1 cols stats; profile_frames fr2 cols stats').
Proof.
  revert stats. induction fr1 as [|df fr1 IH]; intros stats; simpl; [done|].
  destruct (profile_columns (strip_columns df) cols stats); simpl; [apply IH|done].
Qed.

Lemma profile_files_frames k files cols stats :
  profile_files k files cols stats = profile_frames (files ≫= read_csv k) cols stats.
Proof.
  revert stats. induction files as [|path files IH]; intros stats; simpl; [done|].
  rewrite profile_frames_app.
  destruct (profile_frames (read_csv k path) cols stats); simpl; [apply IH|done].
Qed.

Lemma plan_perm frames frames' cols :
  frames ≡ₚ frames' →
  match plan frames cols, plan frames' cols with
  | Ok us, Ok us' => us ≡ₚ us'
  | Raise _, Raise _ => True
  | _, _ => False
  end.
Proof.
  induction 1 as [|df fr fr' _ IH|df1 df2 fr|fr1 fr2 fr3 _ IH1 _ IH2]; simpl.
  - done.
  - destruct (updates (strip_columns df) cols); simpl; [|done].
    destruct (plan fr cols), (plan fr' cols); simpl; try done.
    by apply Permutation_app_head.
  - destruct (updates (strip_columns df1) cols) as [us1|],
      (updates (strip_columns df2) cols) as [us2|]; simpl; try done.
    destruct (plan fr cols) as [us|]; simpl; [|done].
    rewrite !(assoc_L (++)). apply Permutation_app_tail, Permutation_app_comm.
  - destruct (plan fr1 cols), (plan fr2 cols), (plan fr3 cols); try done.
    by etrans.
Qed.

Lemma profile_frames_perm frames frames' cols stats :
  frames ≡ₚ frames' →
  same_outcome (profile_frames frames cols stats) (profile_frames frames' cols stats).
Proof.
  intros Hperm%(plan_perm _ _ cols). rewrite !profile_frames_plan.
  destruct (plan frames cols), (plan frames' cols); simpl; try done.
  by apply foldl_upd_perm.
Qed.

(** C1. For every corpus and every two chunk sizes of at least one row
    the profiler ends alike, with the same profile or the same exception;
    and folding the chunks of the corpus in any other order gives the same
    profile (or raises as well). *)
Theorem profile_chunk_independent (k1 k2 : positive) (files : list csv_file)
    (columns : list string) (frames : list DataFrame) :
  frames ≡ₚ files ≫= read_csv k1 →
  profile_max_lengths k1 files columns = profile_max_lengths k2 files columns ∧
  same_outcome (profile_frames frames columns (init_stats columns))
               (profile_max_lengths k1 files columns).
Proof.
  intros Hperm. split.
  - apply profile_files_chunksize.
  - unfold profile_max_lengths. rewrite profile_files_frames.
    by apply profile_frames_perm.
Qed.

Lemma profile_chunk_independent_witness :
  let files := [mkCsv ["Name"; "City"] [[""; "Oslo"]; ["Jon"; "NA"]; ["Alexandra"; "Rome"]];
                mkCsv ["City "; "Name"] [["Bergen"; "Al"]]] in
  let columns := ["Name"; "City"] in
  profile_max_lengths 1 files columns = profile_max_lengths 2 files columns ∧
  same_outcome (profile_frames (reverse (files ≫= read_csv 1)) columns (init_stats columns))
               (profile_max_lengths 1 files columns).
Proof.
  intros files columns.
  apply (profile_chunk_independent 1 2 files columns (reverse (files ≫= read_csv 1))).
  apply reverse_Permutation.
Defined.

(** *** What each value contributes *)

Lemma dict_get_adjust {V} k k' (f : V → V) (d : dict V) :
  dict_get k (dict_adjust k' f d)
  = if decide (k = k') then f <$> dict_get k d else dict_get k d.
Proof.
  induction d as [|[k0 v] d IH]; simpl; [by case_decide|].
  destruct (decide (k0 = k')) as [->|Hne]; simpl.
  - destruct (decide (k' = k)) as [->|]; [by rewrite decide_True|].
    rewrite IH. by rewrite decide_False.
  - destruct (decide (k0 = k)) as [->|]; [by rewrite decide_False|].
    by rewrite IH.
Qed.

Lemma dict_get_set {V} k k' (v : V) (d : dict V) :
  dict_get k (dict_set k' v d) = if decide (k = k') then Some v else dict_get k d.
Proof.
  induction d as [|[k0 v0] d IH]; simpl.
  - destruct (decide (k' = k)) as [->|]; [by rewrite decide_True|].
    by rewrite decide_False.
  - destruct (decide (k0 = k')) as [->|Hne]; simpl.
    + destruct (decide (k' = k)) as [->|]; [by rewrite decide_True|].
      by rewrite decide_False.
    + destruct (decide (k0 = k)) as [->|]; [by rewrite decide_False|].
      by rewrite IH.
Qed.

Lemma dict_get_init_from col cols v (d : dict col_stats) :
  dict_get col (foldl (λ d c, dict_set c v d) d cols)
  = if decide (col ∈ cols) then Some v else dict_get col d.
Proof.
  revert d. induction cols as [|c cols IH]; intros d; simpl.
  - done.
  - rewrite IH, dict_get_set.
    destruct (decide (col ∈ cols)).
    + by rewrite decide_True by by right.
    + destruct (decide (col = c)) as [->|].
      * by rewrite decide_True by by left.
      * rewrite decide_False; [done|]. by intros [?|?]%elem_of_cons.
Qed.

Lemma dict_get_init col cols :
  col ∈ cols → dict_get col (init_stats cols) = Some {| max_len := 0; nullable := false |}.
Proof. intros Hin. unfold init_stats. by rewrite dict_get_init_from, decide_True. Qed.

Lemma dict_get_foldl_upd col us stats :
  dict_get col (foldl upd stats us)
  = (λ st, foldl (λ st s, absorb s st) st (snd <$> filter (λ u, u.1 = col) us))
      <$> dict_get col stats.
Proof.
  revert stats. induction us as [|[c s] us IH]; intros stats; simpl.
  - by destruct (dict_get col stats).
  - rewrite IH, filter_cons. unfold upd at 1. simpl. rewrite dict_get_adjust.
    destruct (decide (col = c)) as [->|Hne].
    + rewrite decide_True by done. simpl. by destruct (dict_get c stats).
    + by rewrite decide_False by done.
Qed.

Lemma foldl_absorb ss st :
  0 ≤ max_len st →
  foldl (λ st s, absorb s st) st ss
  = {| max_len := Z.max (max_len st) (foldr Z.max 0 (str_len (mjoin ss)));
       nullable := nullable st || isna_any (mjoin ss) |}.
Proof.
  revert st. induction ss as [|s ss IH]; intros st Hst; simpl.
  - destruct st as [m n]. simpl in *. f_equal; [lia|by destruct n].
  - rewrite IH by (rewrite absorb_spec; simpl; lia).
    rewrite absorb_spec. simpl. unfold str_len.
    rewrite fmap_app, foldr_max_app, isna_any_app. f_equal; [lia|].
    by destruct (nullable st), (isna_any s).
Qed.

Lemma filter_none {A} (P : A → Prop) `{∀ x, Decision (P x)} (l : list A) :
  Forall (λ x, ¬ P x) l → filter P l = [].
Proof.
  induction 1 as [|x l Hx _ IH]; [done|]. by rewrite filter_cons_False.
Qed.

Lemma locate_carries cols cols' f :
  carries cols f → cols' ⊆ cols → ∃ js, locate (header f) cols' = Ok js.
Proof.
  intros Hf. induction cols' as [|c cols' IH]; intros Hsub; simpl; [by eexists|].
  destruct (Hf c) as [j ->]; [set_solver|].
  destruct IH as [js ->]; [set_solver|]. by eexists.
Qed.

Lemma profile_files_carries k files cols stats :
  Forall (carries cols) files →
  profile_files k files cols stats = Ok (foldl upd stats (files ≫= file_contributions cols)).
Proof.
  intros Hall. revert stats.
  induction Hall as [|f files Hf _ IH]; intros stats; simpl; [done|].
  rewrite profile_frames_read_csv. unfold file_contributions at 1.
  destruct (locate_carries cols cols f) as [js ->]; [done..|].
  simpl. by rewrite IH, foldl_app.
Qed.

Lemma locate_fst hdr cols js : locate hdr cols = Ok js → js.*1 = cols.
Proof.
  revert js. induction cols as [|c cols IH]; intros js; simpl; [by intros [= <-]|].
  destruct (positions_from 0 c hdr) as [|j [|??]]; try done.
  destruct (locate hdr cols) as [js'|]; [|done].
  simpl. intros [= <-]. simpl. f_equal. by apply IH.
Qed.

Lemma locate_lookup hdr cols js c j :
  locate hdr cols = Ok js → (c, j) ∈ js → positions_from 0 c hdr = [j].
Proof.
  revert js. induction cols as [|c' cols IH]; intros js; simpl.
  - intros [= <-] Hin. by apply elem_of_nil in Hin.
  - destruct (positions_from 0 c' hdr) as [|j' [|??]] eqn:Hpos; try done.
    destruct (locate hdr cols) as [js'|]; [|done].
    simpl. intros [= <-] [[= -> ->]|Hin]%elem_of_cons; [done|]. by eapply IH.
Qed.

(** With distinct canonical names, a file contributes one column to each
    of them: the tokens of that column, read cell by cell. *)
Lemma filter_file_contributions cols f col :
  NoDup cols → carries cols f → col ∈ cols →
  (filter (λ u, u.1 = col) (file_contributions cols f)).*2
  = [read_cell <$> tokens_of col f].
Proof.
  intros Hnd Hf Hin. unfold file_contributions, tokens_of.
  destruct (locate_carries cols cols f) as [js Hjs]; [done..|]. rewrite Hjs.
  pose proof (locate_fst _ _ _ Hjs) as Hfst.
  pose proof (λ c j, locate_lookup _ _ _ c j Hjs) as Hlook.
  clear Hjs Hf. revert cols Hnd Hin Hfst.
  induction js as [|[c j] js IH]; intros cols Hnd Hin Hfst.
  { simpl in Hfst. subst. by apply elem_of_nil in Hin. }
  simpl in Hfst. subst cols. apply NoDup_cons in Hnd as [Hc Hnd].
  unfold contributions. simpl. rewrite filter_cons. simpl.
  destruct (decide (c = col)) as [->|Hne].
  - rewrite (Hlook col j) by by left. simpl.
    rewrite filter_none.
    + unfold column. by rewrite <-list_fmap_compose.
    + apply Forall_forall. intros [c' s'] [cj [[= -> ->] Hin']]%list_elem_of_fmap.
      simpl. intros Heq. apply Hc. apply list_elem_of_fmap. by exists cj.
  - apply elem_of_cons in Hin as [->|Hin]; [done|].
    eapply IH; [|done..]. intros c' j' Hin'. apply Hlook. by right.
Qed.

Lemma str_len_read_cell toks : str_len (read_cell <$> toks) = token_width <$> toks.
Proof.
  unfold str_len. rewrite <-list_fmap_compose. apply list_fmap_ext.
  intros _ tok _. simpl. unfold read_cell, token_width, absent.
  by destruct (decide (tok ∈ NA_VALUES));
    [rewrite bool_decide_eq_true_2|rewrite bool_decide_eq_false_2].
Qed.

Lemma isna_any_read_cell toks : isna_any (read_cell <$> toks) = existsb absent toks.
Proof.
  induction toks as [|tok toks IH]; [done|].
  rewrite fmap_cons.
  change (read_cell tok :: (read_cell <$> toks)) with ([read_cell tok] ++ (read_cell <$> toks)).
  rewrite isna_any_app, IH. simpl. f_equal.
  unfold isna_any, read_cell, absent.
  destruct (decide (tok ∈ NA_VALUES)).
  - rewrite (bool_decide_eq_true_2 (tok ∈ _)) by done.
    apply bool_decide_eq_true_2. by left.
  - rewrite (bool_decide_eq_false_2 (tok ∈ _)) by done.
    apply bool_decide_eq_false_2. by intros [?|?%elem_of_nil]%elem_of_cons.
Qed.

Lemma corpus_contributions cols files col :
  NoDup cols → Forall (carries cols) files → col ∈ cols →
  mjoin (filter (λ u, u.1 = col) (files ≫= file_contributions cols)).*2
  = read_cell <$> (files ≫= tokens_of col).
Proof.
  intros Hnd Hall Hin. induction Hall as [|f files Hf _ IH]; [done|].
  rewrite !bind_cons, filter_app, !fmap_app.
  rewrite filter_file_contributions by done.
  simpl. by rewrite IH.
Qed.

(** C4, as amended. For a corpus of well-formed files that each carry
    the canonical columns, under distinct canonical names, the profile of
    a column is the greatest contribution of a token of that column and
    whether one of them is read as missing.  A token read as missing (the empty token or
    another default NA token, compared untrimmed) contributes 0 and makes
    the column nullable; every other token, one of blanks only included,
    contributes its length in characters and leaves nullability alone. *)
Theorem profile_token_contributions k files cols col :
  NoDup cols → Forall well_formed files → Forall (carries cols) files → col ∈ cols →
  ∃ stats, profile_max_lengths k files cols = Ok stats ∧
    dict_get col stats =
    Some {| max_len := foldr Z.max 0 (token_width <$> files ≫= tokens_of col);
            nullable := existsb absent (files ≫= tokens_of col) |}.
Proof.
  intros Hnd _ Hall Hin. unfold profile_max_lengths.
  rewrite profile_files_carries by done. eexists. split; [done|].
  rewrite dict_get_foldl_upd, dict_get_init by done. simpl. f_equal.
  rewrite foldl_absorb by done. simpl.
  rewrite corpus_contributions by done.
  rewrite str_len_read_cell, isna_any_read_cell. f_equal.
  assert (0 ≤ foldr Z.max 0 (token_width <$> files ≫= tokens_of col)); [|lia].
  generalize (token_width <$> files ≫= tokens_of col). intros l.
  induction l; simpl; lia.
Qed.

Lemma profile_token_contributions_witness :
  let files := [mkCsv ["Id"; "Name"] [["1"; ""]; ["2"; "Jon"]];
                mkCsv ["Id"; "Name"] [["3"; "Alexandra"]]] in
  ∃ stats, profile_max_lengths 2 files ["Id"; "Name"] = Ok stats ∧
    dict_get "Name" stats =
    Some {| max_len := foldr Z.max 0 (token_width <$> files ≫= tokens_of "Name");
            nullable := existsb absent (files ≫= tokens_of "Name") |}.
Proof.
  intros files. apply (profile_token_contributions 2 files ["Id"; "Name"] "Name").
  - compute_done.
  - compute_done.
  - repeat constructor; intros c [->|[->|[]%elem_of_nil]%elem_of_cons]%elem_of_cons;
      by eexists.
  - compute_done.
Defined.

(** C4 as stated fails: a value of one blank is empty after trimming, yet
    it is not read as missing; it contributes length 1 and its column
    stays not nullable. *)
Lemma blank_value_counts_as_text :
  strip " " = "" ∧
  profile_max_lengths 1 [mkCsv ["Id"; "Note"] [["1"; " "]]] ["Id"; "Note"]
  = Ok [("Id", {| max_len := 1; nullable := false |});
        ("Note", {| max_len := 1; nullable := false |})].
Proof. split; reflexivity. Qed.

End profiler.

(** ** Realignment by name, in the profiler and in the loader *)

Section realignment.
Import Py Batch Spec.

Lemma updates_alike df1 df2 cols :
  alike df1 df2 → updates (strip_columns df1) cols = updates (strip_columns df2) cols.
Proof.
  intros [_ Hlab]. induction cols as [|c cols IH]; simpl; [done|].
  by rewrite Hlab, IH.
Qed.

Lemma select_alike df1 df2 cols :
  alike df1 df2 → select (strip_columns df1) cols = select (strip_columns df2) cols.
Proof.
  intros [Hidx Hlab]. unfold select. simpl. rewrite Hidx.
  rewrite (list_filter_iff _ (λ c, labelled c (strip_columns df2) = []))
    by (intros c; by rewrite Hlab).
  destruct (filter _ cols); [|done]. do 2 f_equal.
  induction cols as [|c cols IH]; [done|].
  by rewrite !bind_cons, Hlab, IH.
Qed.

Lemma profile_frames_alike fr1 fr2 cols stats :
  Forall2 alike fr1 fr2 → profile_frames fr1 cols stats = profile_frames fr2 cols stats.
Proof.
  intros Hall. rewrite !profile_frames_plan. f_equal.
  induction Hall as [|df1 df2 fr1 fr2 Hdf _ IH]; simpl; [done|].
  by rewrite (updates_alike df1 df2), IH.
Qed.

Lemma load_frames_alike fr1 fr2 cols table :
  Forall2 alike fr1 fr2 → load_frames fr1 cols table = load_frames fr2 cols table.
Proof.
  intros Hall. revert table.
  induction Hall as [|df1 df2 fr1 fr2 Hdf _ IH]; intros table; simpl; [done|].
  rewrite (select_alike df1 df2) by done.
  destruct (select (strip_columns df2) cols); [apply IH|done].
Qed.

(** The columns of a frame read from a chunk, by position. *)
Lemma make_frame_columns hdr chunk :
  df_columns (make_frame hdr chunk)
  = (λ j, (field j hdr, column j chunk)) <$> seq 0 (length hdr).
Proof.
  simpl. rewrite <-imap_seq_0. apply imap_ext.
  intros j c Hj. simpl. unfold field. by rewrite Hj.
Qed.

Lemma make_frame_permuted σ hdr chunk :
  df_columns (make_frame (pick σ hdr) (pick σ <$> chunk))
  = (λ j, (field j hdr, column j chunk)) <$> σ.
Proof.
  unfold make_frame. cbn [df_columns]. unfold pick.
  rewrite imap_fmap, <-(imap_const (λ j, (field j hdr, column j chunk))).
  apply imap_ext.
  intros p j Hp. simpl. f_equal. unfold column.
  rewrite <-list_fmap_compose. apply list_fmap_ext. intros _ row _. simpl.
  f_equal. unfold field at 1. by rewrite list_lookup_fmap, Hp.
Qed.

Lemma make_frame_labels hdr chunk : (df_columns (make_frame hdr chunk)).*1 = hdr.
Proof.
  simpl. rewrite fmap_imap. rewrite (imap_ext _ (λ _ c, c)) by done.
  induction hdr as [|c hdr IH]; [done|]. simpl. f_equal.
  rewrite <-IH at 2. by apply imap_ext.
Qed.

(** Under distinct labels a label selects at most one column, so the
    selection does not depend on the order of the columns. *)
Lemma labelled_at_most_one (l : list (string * Series)) c :
  NoDup l.*1 → (length (filter (λ cs, cs.1 = c) l) ≤ 1)%nat.
Proof.
  induction l as [|[c' s] l IH]; simpl; [lia|].
  intros [Hc Hnd]%NoDup_cons. rewrite filter_cons. simpl.
  destruct (decide (c' = c)) as [->|]; [|by apply IH].
  rewrite filter_none; [simpl; lia|].
  apply Forall_forall. intros [c'' s'] Hin Heq. simpl in Heq. subst c''.
  apply Hc. apply list_elem_of_fmap. by exists (c, s').
Qed.

Lemma labelled_perm (l1 l2 : list (string * Series)) c :
  l1 ≡ₚ l2 → NoDup l1.*1 →
  filter (λ cs, cs.1 = c) l1 = filter (λ cs, cs.1 = c) l2.
Proof.
  intros Hperm Hnd.
  pose proof (labelled_at_most_one l1 c Hnd) as Hlen.
  pose proof (filter_Permutation (λ cs : string * Series, cs.1 = c) _ _ Hperm) as Hf.
  destruct (filter (λ cs, cs.1 = c) l1) as [|x [|y l]].
  - by apply Permutation_nil_l in Hf.
  - by apply Permutation_singleton_l in Hf.
  - simpl in Hlen. lia.
Qed.

Lemma make_frame_permuted_alike σ hdr chunk :
  NoDup (strip <$> hdr) → σ ≡ₚ seq 0 (length hdr) →
  alike (make_frame (pick σ hdr) (pick σ <$> chunk)) (make_frame hdr chunk).
Proof.
  intros Hnd Hσ. split; [simpl; by rewrite length_fmap|].
  intros c. unfold labelled, strip_columns. cbn [df_columns].
  symmetry. apply labelled_perm.
  - apply fmap_Permutation. rewrite make_frame_columns.
    change (df_columns {| df_index := length (pick σ <$> chunk);
                          df_columns := df_columns (make_frame (pick σ hdr) (pick σ <$> chunk)) |})
      with (df_columns (make_frame (pick σ hdr) (pick σ <$> chunk))).
    rewrite make_frame_permuted. by rewrite Hσ.
  - rewrite <-list_fmap_compose.
    change (fst ∘ (λ cs : string * Series, (strip cs.1, cs.2))) with (strip ∘ @fst string Series).
    rewrite list_fmap_compose. by rewrite make_frame_labels.
Qed.

Lemma chunks_go_fmap {A B} (g : A → B) fuel k (l : list A) :
  chunks_go fuel k (g <$> l) = fmap (M:=list) g <$> chunks_go fuel k l.
Proof.
  revert l. induction fuel as [|fuel IH]; intros [|x l]; try done.
  change (chunks_go (S fuel) k (g <$> x :: l))
    with (take k (g <$> x :: l) :: chunks_go fuel k (drop k (g <$> x :: l))).
  by rewrite <-fmap_take, <-fmap_drop, IH.
Qed.

Lemma chunks_fmap {A B} (g : A → B) k (l : list A) :
  chunks k (g <$> l) = fmap (M:=list) g <$> chunks k l.
Proof. unfold chunks. by rewrite length_fmap, chunks_go_fmap. Qed.

(** Read in chunks of any size, a file with its columns reordered yields
    frames alike those of the file itself. *)
Lemma read_csv_permuted k σ f :
  NoDup (strip <$> header f) → σ ≡ₚ seq 0 (length (header f)) →
  Forall2 alike (read_csv k (permute_columns σ f)) (read_csv k f).
Proof.
  intros Hnd Hσ. unfold read_csv, permute_columns. cbn [header rows].
  destruct (rows f) as [|r rs].
  - constructor; [|done]. by apply (make_frame_permuted_alike σ _ []).
  - change (pick σ <$> r :: rs) with (pick σ <$> (r :: rs)).
    destruct (pick σ <$> (r :: rs)) eqn:Heq; [done|]. rewrite <-Heq.
    rewrite chunks_fmap, <-list_fmap_compose.
    apply Forall2_fmap, Forall_Forall2_diag, Forall_true.
    intros c. by apply make_frame_permuted_alike.
Qed.

Lemma profile_files_middle k pre f g post cols stats :
  (∀ stats, profile_frames (read_csv k g) cols stats
            = profile_frames (read_csv k f) cols stats) →
  profile_files k (pre ++ g :: post) cols stats
  = profile_files k (pre ++ f :: post) cols stats.
Proof.
  intros Hfg. revert stats. induction pre as [|path pre IH]; intros stats; simpl.
  - by rewrite Hfg.
  - destruct (profile_frames (read_csv k path) cols stats); simpl; [apply IH|done].
Qed.

Lemma load_all_csvs_middle k pre f g post cols table :
  (∀ table, load_frames (read_csv k g) cols table
            = load_frames (read_csv k f) cols table) →
  load_all_csvs k (pre ++ g :: post) cols table
  = load_all_csvs k (pre ++ f :: post) cols table.
Proof.
  intros Hfg. revert table. induction pre as [|path pre IH]; intros table; simpl.
  - by rewrite Hfg.
  - destruct (load_frames (read_csv k path) cols table) as [table' [[]|e]];
      [apply IH|done].
Qed.

(** *** Loading a file whose header is the canonical one *)

Lemma positions_from_nil o c hdr :
  positions_from o c hdr = [] ↔ c ∉ strip <$> hdr.
Proof.
  revert o. induction hdr as [|h hdr IH]; intros o; simpl.
  - split; [intros _; apply not_elem_of_nil|done].
  - rewrite not_elem_of_cons. destruct (decide (strip h = c)) as [<-|Hne].
    + split; [done|]. by intros [? _].
    + rewrite IH. split; [by split|by intros [_ ?]].
Qed.

Lemma positions_from_unique o hdr j h :
  NoDup (strip <$> hdr) → hdr !! j = Some h →
  positions_from o (strip h) hdr = [(o + j)%nat].
Proof.
  revert o j. induction hdr as [|h' hdr IH]; intros o j; [done|].
  rewrite fmap_cons. intros [Hh' Hnd]%NoDup_cons. destruct j as [|j]; simpl.
  - intros [= ->]. rewrite decide_True by done.
    rewrite (proj2 (positions_from_nil _ _ _)) by done. by rewrite Nat.add_0_r.
  - intros Hj. rewrite decide_False.
    + rewrite (IH (S o) j) by done. f_equal. lia.
    + intros Heq. apply Hh'. rewrite Heq.
      apply list_elem_of_fmap. exists h. split; [done|]. by eapply list_elem_of_lookup_2.
Qed.

Lemma fmap_seq_lookup {A B} (g : A → B) (h : nat → B) (l : list A) :
  (∀ i x, l !! i = Some x → h i = g x) → h <$> seq 0 (length l) = g <$> l.
Proof.
  intros Hext. rewrite <-imap_seq_0, <-(imap_const g). by apply imap_ext.
Qed.

Lemma select_canonical hdr chunk :
  NoDup (strip <$> hdr) →
  select (strip_columns (make_frame hdr chunk)) (strip <$> hdr)
  = Ok {| df_index := length chunk;
          df_columns := (λ j, (strip (field j hdr), column j chunk))
                          <$> seq 0 (length hdr) |}.
Proof.
  intros Hnd. unfold select.
  rewrite filter_none; last first.
  { apply Forall_forall. intros c Hc. rewrite labelled_make_frame.
    intros Hnil%fmap_nil_inv. by apply positions_from_nil in Hnil. }
  f_equal. f_equal.
  rewrite <-(fmap_seq_lookup strip (λ j, strip (field j hdr)) hdr)
    by (intros i x Hi; unfold field; by rewrite Hi).
  assert (Forall (λ j, is_Some (hdr !! j)) (seq 0 (length hdr))) as Hall.
  { apply Forall_forall. intros j [_ Hj]%elem_of_seq. by apply lookup_lt_is_Some. }
  induction Hall as [|j js [h Hj] _ IH]; [done|].
  rewrite !fmap_cons, bind_cons, IH. rewrite labelled_make_frame.
  assert (field j hdr = h) as -> by (unfold field; by rewrite Hj).
  by rewrite (positions_from_unique 0 hdr j h).
Qed.

Lemma frame_rows_canonical hdr chunk :
  Forall (λ r, length r = length hdr) chunk →
  frame_rows {| df_index := length chunk;
                df_columns := (λ j, (strip (field j hdr), column j chunk))
                                <$> seq 0 (length hdr) |}
  = fmap (M:=list) read_cell <$> chunk.
Proof.
  intros Hrect. unfold frame_rows. cbn [df_index df_columns].
  apply fmap_seq_lookup. intros i row Hi.
  rewrite <-list_fmap_compose.
  rewrite Forall_forall in Hrect.
  rewrite <-(Hrect row) by by eapply list_elem_of_lookup_2.
  apply fmap_seq_lookup. intros j tok Hj. simpl.
  unfold column. rewrite list_lookup_fmap, Hi. simpl.
  unfold field. by rewrite Hj.
Qed.

Lemma Forall_join_inv {A} (P : A → Prop) (ls : list (list A)) :
  Forall P (mjoin ls) → Forall (Forall P) ls.
Proof.
  induction ls as [|l ls IH]; simpl; [done|].
  intros [??]%Forall_app. constructor; auto.
Qed.

Lemma load_frames_canonical hdr chunks table :
  NoDup (strip <$> hdr) →
  Forall (Forall (λ r, length r = length hdr)) chunks →
  load_frames (make_frame hdr <$> chunks) (strip <$> hdr) table
  = (table ++ (fmap (M:=list) read_cell <$> mjoin chunks), Ok ()).
Proof.
  intros Hnd Hall. revert table.
  induction Hall as [|c cs Hc _ IH]; intros table; simpl.
  - by rewrite app_nil_r.
  - rewrite select_canonical by done. rewrite IH. unfold to_sql.
    rewrite frame_rows_canonical by done.
    by rewrite fmap_app, (assoc_L (++)).
Qed.

(** A well-formed file under the canonical header loads row by row, the
    cells in the order of the header. *)
Lemma load_file_canonical k f table :
  NoDup (strip <$> header f) →
  Forall (λ r, length r = length (header f)) (rows f) →
  load_frames (read_csv k f) (strip <$> header f) table
  = (table ++ (fmap (M:=list) read_cell <$> rows f), Ok ()).
Proof.
  intros Hnd Hrect. unfold read_csv.
  destruct (rows f) as [|r rs] eqn:Hrows.
  - by apply (load_frames_canonical _ [[]]); [|repeat constructor].
  - rewrite load_frames_canonical; [by rewrite chunks_concat|done|].
    apply Forall_join_inv. by rewrite chunks_concat.
Qed.

(** *** A file read in chunks, in the load pass *)

Lemma read_csv_first k f : ∃ chunk frames, read_csv k f = make_frame (header f) chunk :: frames.
Proof.
  unfold read_csv. destruct (rows f) as [|r rs]; [by eexists _, _|].
  destruct (chunks_cons (Pos.to_nat k) r rs) as (c & cs & ->). by eexists _, _.
Qed.

Lemma select_make_frame hdr chunk cols :
  select (strip_columns (make_frame hdr chunk)) cols =
  match lacking hdr cols with
  | [] => Ok {| df_index := length chunk;
                df_columns := cols ≫= (λ c, (λ j, (c, column j chunk))
                                              <$> positions_from 0 c hdr) |}
  | missing => Raise (KeyError missing)
  end.
Proof.
  unfold select, lacking.
  rewrite (list_filter_iff _ (λ c, positions_from 0 c hdr = [])); last first.
  { intros c. rewrite labelled_make_frame. split; [apply fmap_nil_inv|by intros ->]. }
  destruct (filter _ cols); [|done]. do 2 f_equal.
  induction cols as [|c cols IH]; [done|].
  by rewrite !bind_cons, labelled_make_frame, IH.
Qed.

Lemma frame_rows_selected hdr chunk cols :
  frame_rows {| df_index := length chunk;
                df_columns := cols ≫= (λ c, (λ j, (c, column j chunk))
                                              <$> positions_from 0 c hdr) |}
  = realign (aligned hdr cols) <$> chunk.
Proof.
  unfold frame_rows. cbn [df_index df_columns].
  apply fmap_seq_lookup. intros i row Hi. unfold realign, aligned.
  induction cols as [|c cols IH]; [done|].
  rewrite !bind_cons, !fmap_app, IH. f_equal.
  rewrite <-list_fmap_compose. apply list_fmap_ext. intros _ j _. simpl.
  unfold column. by rewrite list_lookup_fmap, Hi.
Qed.

Lemma load_frames_make_frames hdr chunks cols table :
  lacking hdr cols = [] →
  load_frames (make_frame hdr <$> chunks) cols table
  = (table ++ (realign (aligned hdr cols) <$> mjoin chunks), Ok ()).
Proof.
  intros Hnone. revert table.
  induction chunks as [|c cs IH]; intros table; simpl.
  - by rewrite app_nil_r.
  - rewrite select_make_frame, Hnone, IH. unfold to_sql.
    by rewrite frame_rows_selected, fmap_app, (assoc_L (++)).
Qed.

(** One file, read in chunks of any size: either a canonical column is
    lacking and nothing is added, or every row is added, realigned. *)
Lemma load_frames_read_csv k f cols table :
  load_frames (read_csv k f) cols table =
  match lacking (header f) cols with
  | [] => (table ++ file_rows cols f, Ok ())
  | missing => (table, Raise (KeyError missing))
  end.
Proof.
  destruct (lacking (header f) cols) as [|c missing] eqn:Hlack.
  - unfold read_csv, file_rows. destruct (rows f) as [|r rs] eqn:Hrows.
    + by apply (load_frames_make_frames _ [[]]).
    + by rewrite load_frames_make_frames, chunks_concat.
  - destruct (read_csv_first k f) as (chunk & frames & ->).
    simpl. by rewrite select_make_frame, Hlack.
Qed.

Lemma lacking_carries cols f : carries cols f → lacking (header f) cols = [].
Proof.
  intros Hf. unfold lacking. apply filter_none, Forall_forall.
  intros c Hc Hnil. destruct (Hf c Hc) as [j Hj]. congruence.
Qed.

Lemma load_all_carries k files cols rows0 :
  Forall (carries cols) files →
  load_all_csvs k files cols rows0 = (rows0 ++ (files ≫= file_rows cols), Ok ()).
Proof.
  intros Hall. revert rows0.
  induction Hall as [|f files Hf _ IH]; intros rows0; simpl.
  - by rewrite app_nil_r.
  - rewrite load_frames_read_csv, lacking_carries by done.
    by rewrite IH, <-(assoc_L (++)).
Qed.

(** *** A file with columns besides the canonical ones *)

Lemma bind_positions {A} (g : A → list nat) o (l : list A) :
  (∀ i x, l !! i = Some x → g x = [(o + i)%nat]) → l ≫= g = seq o (length l).
Proof.
  revert o. induction l as [|a l IH]; intros o Hg; [done|].
  rewrite bind_cons, (Hg 0%nat a), Nat.add_0_r by done. simpl. f_equal.
  apply IH. intros i x Hi. rewrite (Hg (S i) x) by done. f_equal. lia.
Qed.

Lemma positions_from_elem o c hdr j :
  j ∈ positions_from o c hdr →
  ∃ h, hdr !! (j - o)%nat = Some h ∧ strip h = c ∧ (o ≤ j)%nat.
Proof.
  revert o. induction hdr as [|h hdr IH]; intros o; simpl.
  { by intros ?%elem_of_nil. }
  intros Hj.
  assert (j = o ∧ strip h = c ∨ j ∈ positions_from (S o) c hdr) as [[-> Hh]|Hin].
  { destruct (decide (strip h = c)); [|by right].
    apply elem_of_cons in Hj as [->|?]; [by left|by right]. }
  - exists h. by rewrite Nat.sub_diag.
  - destruct (IH _ Hin) as (h' & Hh' & ? & ?). exists h'.
    replace (j - o)%nat with (S (j - S o)) by lia. split; [done|]. split; [done|lia].
Qed.

(** The labels at the positions of the canonical columns are, trimmed,
    the canonical names. *)
Lemma aligned_labels hdr cols :
  (∀ c, c ∈ cols → ∃ j, positions_from 0 c hdr = [j]) →
  strip <$> pick (aligned hdr cols) hdr = cols.
Proof.
  unfold aligned, pick. induction cols as [|c cols IH]; intros Hall; [done|].
  destruct (Hall c) as [j Hj]; [by left|].
  rewrite bind_cons, Hj. simpl. f_equal.
  - destruct (positions_from_elem 0 c hdr j) as (h & Hh & <- & _).
    { rewrite Hj. by left. }
    unfold field. by rewrite Nat.sub_0_r in Hh; rewrite Hh.
  - apply IH. intros c' Hc'. apply Hall. by right.
Qed.

Lemma bind_fmap_list {A B C} (g : A → B) (h : B → list C) (l : list A) :
  (g <$> l) ≫= h = l ≫= (λ x, h (g x)).
Proof. induction l as [|x l IH]; [done|]. by rewrite fmap_cons, !bind_cons, IH. Qed.

Lemma aligned_canonical hdr :
  NoDup (strip <$> hdr) → aligned hdr (strip <$> hdr) = seq 0 (length hdr).
Proof.
  intros Hnd. unfold aligned.
  rewrite <-(bind_positions (λ h, positions_from 0 (strip h) hdr) 0 hdr).
  - apply bind_fmap_list.
  - intros i h Hi. by apply positions_from_unique.
Qed.

Lemma locate_aligned hdr cols :
  (∀ c, c ∈ cols → ∃ j, positions_from 0 c hdr = [j]) →
  locate hdr cols = Ok (zip cols (aligned hdr cols)).
Proof.
  unfold aligned. induction cols as [|c cols IH]; intros Hall; [done|].
  destruct (Hall c) as [j Hj]; [by left|].
  cbn [locate]. rewrite Hj, IH by (intros c' Hc'; apply Hall; by right).
  by rewrite bind_cons, Hj.
Qed.

Lemma contributions_zip cols js chunk :
  contributions (zip cols js) chunk = zip cols ((λ j, column j chunk) <$> js).
Proof.
  unfold contributions. revert js.
  induction cols as [|c cols IH]; intros [|j js]; simpl; [done..|].
  f_equal. apply IH.
Qed.

Lemma field_pick σ row i j : σ !! i = Some j → field i (pick σ row) = field j row.
Proof. intros Hi. unfold field at 1, pick. by rewrite list_lookup_fmap, Hi. Qed.

Lemma realign_pick σ row : realign (seq 0 (length σ)) (pick σ row) = realign σ row.
Proof.
  unfold realign. apply fmap_seq_lookup. intros i j Hi. by rewrite (field_pick σ row i j).
Qed.

Lemma realign_read_cell σ row : realign σ row = read_cell <$> pick σ row.
Proof. unfold realign, pick. by rewrite <-list_fmap_compose. Qed.

Lemma canonical_part_header cols f :
  carries cols f → strip <$> header (canonical_part cols f) = cols.
Proof. intros Hf. by apply aligned_labels. Qed.

Lemma canonical_part_aligned cols f :
  NoDup cols → carries cols f →
  aligned (header (canonical_part cols f)) cols
  = seq 0 (length (aligned (header f) cols)).
Proof.
  intros Hnd Hf.
  rewrite <-(canonical_part_header cols f) at 2 by done.
  rewrite aligned_canonical by (by rewrite canonical_part_header).
  unfold canonical_part, permute_columns, pick. cbn [header].
  by rewrite length_fmap.
Qed.

Lemma canonical_part_carries cols f :
  NoDup cols → carries cols f → carries cols (canonical_part cols f).
Proof.
  intros Hnd Hf c Hc.
  rewrite <-(canonical_part_header cols f) in Hc, Hnd by done.
  apply list_elem_of_fmap in Hc as (h & -> & Hh).
  apply list_elem_of_lookup in Hh as [i Hi].
  exists (0 + i)%nat. by apply positions_from_unique.
Qed.

Lemma file_rows_canonical_part cols f :
  NoDup cols → carries cols f →
  file_rows cols (canonical_part cols f) = file_rows cols f.
Proof.
  intros Hnd Hf. unfold file_rows. rewrite canonical_part_aligned by done.
  unfold canonical_part, permute_columns. cbn [rows].
  rewrite <-list_fmap_compose. apply list_fmap_ext. intros _ row _. simpl.
  apply realign_pick.
Qed.

Lemma file_rows_read_cell cols f :
  file_rows cols f = fmap (M:=list) read_cell <$> rows (canonical_part cols f).
Proof.
  unfold file_rows, canonical_part, permute_columns. cbn [rows].
  rewrite <-list_fmap_compose. apply list_fmap_ext. intros _ row _. simpl.
  apply realign_read_cell.
Qed.

(** Chunk by chunk, the profiler and the loader take from a file what
    they take from its canonical part. *)
Lemma profile_frames_canonical_part k cols f stats :
  NoDup cols → carries cols f →
  profile_frames (read_csv k (canonical_part cols f)) cols stats
  = profile_frames (read_csv k f) cols stats.
Proof.
  intros Hnd Hf. rewrite !profile_frames_read_csv.
  rewrite (locate_aligned (header f)) by done.
  rewrite (locate_aligned (header (canonical_part cols f)))
    by (by apply canonical_part_carries).
  rewrite canonical_part_aligned by done.
  do 2 f_equal. rewrite !contributions_zip. f_equal.
  unfold canonical_part, permute_columns. cbn [rows].
  apply fmap_seq_lookup. intros i j Hi. unfold column.
  rewrite <-list_fmap_compose. apply list_fmap_ext. intros _ row _. simpl.
  by rewrite (field_pick _ row i j).
Qed.

Lemma load_frames_canonical_part k cols f table :
  NoDup cols → carries cols f →
  load_frames (read_csv k (canonical_part cols f)) cols table
  = load_frames (read_csv k f) cols table.
Proof.
  intros Hnd Hf. rewrite !load_frames_read_csv.
  rewrite !lacking_carries by (done || by apply canonical_part_carries).
  by rewrite file_rows_canonical_part.
Qed.

(** *** A file that lacks a canonical column *)

Lemma profile_files_app k pre rest cols stats :
  profile_files k (pre ++ rest) cols stats
  = (stats' ← profile_files k pre cols stats; profile_files k rest cols stats').
Proof.
  revert stats. induction pre as [|path pre IH]; intros stats; simpl; [done|].
  destruct (profile_frames (read_csv k path) cols stats); simpl; [apply IH|done].
Qed.

Lemma load_all_csvs_app k pre rest cols table :
  load_all_csvs k (pre ++ rest) cols table
  = match load_all_csvs k pre cols table with
    | (table', Ok _) => load_all_csvs k rest cols table'
    | stopped => stopped
    end.
Proof.
  revert table. induction pre as [|path pre IH]; intros table; simpl; [done|].
  destruct (load_frames (read_csv k path) cols table) as [table' [[]|e]];
    [apply IH|done].
Qed.

Lemma positions_from_at_most_one o c hdr :
  NoDup (strip <$> hdr) → (length (positions_from o c hdr) ≤ 1)%nat.
Proof.
  revert o. induction hdr as [|h hdr IH]; intros o; simpl; [lia|].
  intros [Hh Hnd]%NoDup_cons. destruct (decide (strip h = c)) as [<-|]; [|by apply IH].
  rewrite (proj2 (positions_from_nil _ _ _)) by done. simpl. lia.
Qed.

(** Every chunk of a file that lacks a canonical column makes the
    profiler raise; under distinct labels the exception is the [KeyError]
    of the first canonical column the file lacks. *)
Lemma locate_missing hdr cols c :
  c ∈ cols → c ∉ strip <$> hdr →
  ∃ e, locate hdr cols = Raise e ∧
       (NoDup (strip <$> hdr) →
        ∃ c', e = KeyError [c'] ∧ c' ∈ cols ∧ c' ∉ strip <$> hdr).
Proof.
  intros Hin Hc. induction cols as [|col cols IH]; [by apply elem_of_nil in Hin|].
  simpl. destruct (positions_from 0 col hdr) as [|j [|j' js]] eqn:Hpos.
  - eexists. split; [done|]. intros _. exists col. split; [done|].
    split; [by left|]. by apply positions_from_nil in Hpos.
  - apply elem_of_cons in Hin as [->|Hin].
    { apply (positions_from_nil 0) in Hc. congruence. }
    destruct (IH Hin) as (e & -> & He). exists e. split; [done|].
    intros Hnd. destruct (He Hnd) as (c' & -> & ? & ?).
    exists c'. split; [done|]. split; [by right|done].
  - eexists. split; [done|]. intros Hnd.
    pose proof (positions_from_at_most_one 0 col hdr Hnd) as Hlen.
    rewrite Hpos in Hlen. simpl in Hlen. lia.
Qed.

(** The loader stops at the first chunk of such a file, the table as it
    was. *)
Lemma load_frames_missing k f cols c table :
  c ∈ cols → c ∉ strip <$> header f →
  ∃ missing, c ∈ missing ∧ missing ⊆ cols ∧
    Forall (λ c', c' ∉ strip <$> header f) missing ∧
    load_frames (read_csv k f) cols table = (table, Raise (KeyError missing)).
Proof.
  intros Hin Hc. destruct (read_csv_first k f) as (chunk & frames & ->).
  simpl. unfold select.
  assert (∀ c', labelled c' (strip_columns (make_frame (header f) chunk)) = []
                ↔ c' ∉ strip <$> header f) as Hlab.
  { intros c'. rewrite labelled_make_frame, <-positions_from_nil.
    split; [apply fmap_nil_inv|by intros ->]. }
  set (missing := filter _ cols).
  assert (c ∈ missing) as Hmiss by (apply list_elem_of_filter; by rewrite Hlab).
  exists missing. split; [done|]. split; [|split].
  - intros c' [_ ?]%list_elem_of_filter. done.
  - apply Forall_forall. intros c' [? _]%list_elem_of_filter. by apply Hlab.
  - destruct missing; [by apply elem_of_nil in Hmiss|done].
Qed.

(** C5, as amended. The corpus is one of well-formed files, the
    canonical names distinct, the files before the one looked at carrying
    the canonical columns.  A file [f] that lacks a canonical column stops
    the run in both passes: the profiler raises (the [KeyError] of a
    missing column when the trimmed labels of the file are distinct) and
    the loader raises the [KeyError] of the missing columns with the table
    as the files before left it, no row of [f] or of a later file added.
    A file [g] that carries the canonical columns is accepted whatever
    other columns it has: both passes treat it, wherever it stands, as
    they treat its canonical part (the file without the other columns),
    the profile is returned, and the rows added for it are the rows of
    its canonical part. *)
Theorem missing_column_aborts (k : positive) (pre post : list csv_file) (f g : csv_file)
    (columns : list string) (c : string) (table : list (list cell)) :
  NoDup columns →
  Forall well_formed (pre ++ [f; g]) →
  Forall (carries columns) pre →
  c ∈ columns → c ∉ strip <$> header f →
  carries columns g →
  ((∃ e, profile_max_lengths k (pre ++ f :: post) columns = Raise e ∧
         (NoDup (strip <$> header f) →
          ∃ c', e = KeyError [c'] ∧ c' ∈ columns ∧ c' ∉ strip <$> header f))
   ∧ ∃ missing, c ∈ missing ∧ missing ⊆ columns ∧
       Forall (λ c', c' ∉ strip <$> header f) missing ∧
       load_all_csvs k (pre ++ f :: post) columns table
       = (table ++ (pre ≫= file_rows columns), Raise (KeyError missing)))
  ∧ (strip <$> header (canonical_part columns g) = columns
     ∧ profile_max_lengths k (pre ++ g :: post) columns
       = profile_max_lengths k (pre ++ canonical_part columns g :: post) columns
     ∧ load_all_csvs k (pre ++ g :: post) columns table
       = load_all_csvs k (pre ++ canonical_part columns g :: post) columns table
     ∧ (∃ stats, profile_max_lengths k (pre ++ [g]) columns = Ok stats)
     ∧ load_all_csvs k (pre ++ [g]) columns table
       = (table ++ (pre ≫= file_rows columns)
                ++ (fmap (M:=list) read_cell <$> rows (canonical_part columns g)),
          Ok ())).
Proof.
  intros Hnd _ Hpre Hin Hc Hg. split; [split|].
  - destruct (locate_missing (header f) columns c Hin Hc) as (e & He & Hkey).
    exists e. split; [|done].
    unfold profile_max_lengths. rewrite profile_files_app.
    rewrite (profile_files_carries k pre) by done. simpl.
    by rewrite profile_frames_read_csv, He.
  - destruct (load_frames_missing k f columns c
                (table ++ (pre ≫= file_rows columns)) Hin Hc)
      as (missing & ? & ? & ? & Hf).
    exists missing. repeat split; try done.
    rewrite load_all_csvs_app, load_all_carries by done. simpl. by rewrite Hf.
  - split; [by apply canonical_part_header|]. split; [|split; [|split]].
    + symmetry. apply profile_files_middle. intros stats.
      by apply profile_frames_canonical_part.
    + symmetry. apply load_all_csvs_middle. intros table'.
      by apply load_frames_canonical_part.
    + unfold profile_max_lengths. rewrite profile_files_carries; [by eexists|].
      apply Forall_app. split; [done|]. by constructor.
    + rewrite load_all_carries by (apply Forall_app; split; [done|by constructor]).
      rewrite bind_app.
      change ([g] ≫= file_rows columns) with (file_rows columns g ++ []).
      by rewrite app_nil_r, file_rows_read_cell.
Qed.

Lemma missing_column_aborts_witness :
  let pre := [mkCsv ["a"; "b"] [["1"; "2"]; ["3"; "4"]]] in
  let f := mkCsv ["a"; "B"] [["5"; "6"]] in
  let g := mkCsv ["extra"; " b"; "a"] [["x"; "8"; "7"]] in
  ((∃ e, profile_max_lengths 1 (pre ++ f :: [g]) ["a"; "b"] = Raise e ∧
         (NoDup (strip <$> header f) →
          ∃ c', e = KeyError [c'] ∧ c' ∈ ["a"; "b"] ∧ c' ∉ strip <$> header f))
   ∧ ∃ missing, "b" ∈ missing ∧ missing ⊆ ["a"; "b"] ∧
       Forall (λ c', c' ∉ strip <$> header f) missing ∧
       load_all_csvs 1 (pre ++ f :: [g]) ["a"; "b"] []
       = ([] ++ (pre ≫= file_rows ["a"; "b"]), Raise (KeyError missing)))
  ∧ (strip <$> header (canonical_part ["a"; "b"] g) = ["a"; "b"]
     ∧ profile_max_lengths 1 (pre ++ g :: [g]) ["a"; "b"]
       = profile_max_lengths 1 (pre ++ canonical_part ["a"; "b"] g :: [g]) ["a"; "b"]
     ∧ load_all_csvs 1 (pre ++ g :: [g]) ["a"; "b"] []
       = load_all_csvs 1 (pre ++ canonical_part ["a"; "b"] g :: [g]) ["a"; "b"] []
     ∧ (∃ stats, profile_max_lengths 1 (pre ++ [g]) ["a"; "b"] = Ok stats)
     ∧ load_all_csvs 1 (pre ++ [g]) ["a"; "b"] []
       = ([] ++ (pre ≫= file_rows ["a"; "b"])
             ++ (fmap (M:=list) read_cell <$> rows (canonical_part ["a"; "b"] g)),
          Ok ())).
Proof.
  intros pre f g.
  apply (missing_column_aborts 1 pre [g] f g ["a"; "b"] "b" []).
  - compute_done.
  - compute_done.
  - repeat constructor; intros c [->|[->|[]%elem_of_nil]%elem_of_cons]%elem_of_cons;
      by eexists.
  - compute_done.
  - compute_done.
  - intros c [->|[->|[]%elem_of_nil]%elem_of_cons]%elem_of_cons; by eexists.
Defined.

(** C5 as stated fails: a file with a column the canonical header lacks
    is profiled and loaded, that column left aside. *)
Lemma extra_column_is_accepted :
  "extra" ∈ (strip <$> header (mkCsv ["a"; "extra"] [["1"; "2"]])) ∧
  ("extra" ∉ ["a"]) ∧
  profile_max_lengths 1 [mkCsv ["a"; "extra"] [["1"; "2"]]] ["a"]
  = Ok [("a", {| max_len := 1; nullable := false |})] ∧
  load_all_csvs 1 [mkCsv ["a"; "extra"] [["1"; "2"]]] ["a"] [] = ([[Some "1"]], Ok ()).
Proof.
  split; [compute_done|]. split; [compute_done|].
  split; reflexivity.
Qed.

(** C6. A file whose columns are those of a well-formed file [f] with
    distinct trimmed labels, in another order, profiles and loads as [f]
    does, wherever it stands in the corpus and whatever the chunk size:
    columns are found by trimmed name.  When every row of [f] has a field
    for each label and the canonical header is that of [f], the reordered
    file adds to the table the rows of [f], cells in canonical order. *)
Theorem reordered_file_realigned (k : positive) (σ : list nat) (f : csv_file)
    (pre post : list csv_file) (columns : list string) (table : list (list cell)) :
  well_formed f →
  NoDup (strip <$> header f) →
  σ ≡ₚ seq 0 (length (header f)) →
  profile_max_lengths k (pre ++ permute_columns σ f :: post) columns
  = profile_max_lengths k (pre ++ f :: post) columns
  ∧ load_all_csvs k (pre ++ permute_columns σ f :: post) columns table
    = load_all_csvs k (pre ++ f :: post) columns table
  ∧ (Forall (λ r, length r = length (header f)) (rows f) →
     load_all_csvs k [permute_columns σ f] (strip <$> header f) table
     = (table ++ (fmap (M:=list) read_cell <$> rows f), Ok ())).
Proof.
  intros _ Hnd Hσ.
  pose proof (read_csv_permuted k σ f Hnd Hσ) as Halike.
  split; [|split].
  - apply profile_files_middle. intros stats. by apply profile_frames_alike.
  - apply load_all_csvs_middle. intros table'. by apply load_frames_alike.
  - intros Hrect. simpl.
    rewrite (load_frames_alike _ _ _ _ Halike).
    by rewrite load_file_canonical.
Qed.

Lemma reordered_file_realigned_witness :
  let f := mkCsv ["id"; " name"] [["1"; "Ann"]; ["2"; ""]; ["3"; "Cy"]] in
  let g := permute_columns [1%nat; 0%nat] f in
  header g = [" name"; "id"] ∧
  profile_max_lengths 2 ([] ++ g :: [f]) ["id"; "name"]
  = profile_max_lengths 2 ([] ++ f :: [f]) ["id"; "name"]
  ∧ load_all_csvs 2 ([] ++ g :: [f]) ["id"; "name"] []
    = load_all_csvs 2 ([] ++ f :: [f]) ["id"; "name"] []
  ∧ (Forall (λ r, length r = length (header f)) (rows f) →
     load_all_csvs 2 [g] (strip <$> header f) []
     = ([] ++ (fmap (M:=list) read_cell <$> rows f), Ok ())).
Proof.
  intros f g. split; [reflexivity|].
  apply (reordered_file_realigned 2 [1%nat; 0%nat] f [] [f] ["id"; "name"] []).
  - compute_done.
  - compute_done.
  - apply perm_swap.
Defined.

End realignment.

(** ** The header reader *)

Section header_reader.
Import Py Spec.

Lemma split_nonempty sep s : split sep s ≠ [].
Proof.
  destruct s as [|c s]; simpl; [done|].
  case_decide; [done|]. by destruct (split sep s).
Qed.

(** The reader of [BulkCSVtoSQL.py] splits the first line at every
    delimiter, which never fails, trims the fields and raises exactly when
    one of them is empty. *)
Lemma bulk_read_header_columns_spec (first_csv : string) :
  let fields :=
    strip <$> split Bulk.FIELDTERMINATOR (rstrip_crlf (readline first_csv)) in
  fields ≠ [] ∧
  (EmptyString ∈ fields → Bulk.read_header_columns first_csv = Raise ValueError) ∧
  (EmptyString ∉ fields → Bulk.read_header_columns first_csv = Ok fields).
Proof.
  intros fields. unfold Bulk.read_header_columns. fold fields.
  assert (fields ≠ []) as Hne.
  { unfold fields. intros Hnil%fmap_nil_inv. by apply split_nonempty in Hnil. }
  rewrite (bool_decide_eq_false_2 (fields = [])) by done. simpl.
  split; [done|]. split; intros Hin.
  - rewrite bool_decide_eq_true_2; [done|].
    apply Exists_exists. by exists EmptyString.
  - rewrite bool_decide_eq_false_2; [done|].
    intros (c & Hc & ->)%Exists_exists. done.
Qed.

(** C7 at a header with a blank field: the reader of [BulkCSVtoSQL.py]
    raises, the reader of [BatchCSVtoSQL.py] returns the trimmed names,
    the empty one among them. *)
Theorem blank_header_field_readers :
  Bulk.read_header_columns ("a, ,b" +:+ nl +:+ "1,2,3" +:+ nl) = Raise ValueError ∧
  Batch.read_header_columns (Batch.mkCsv ["a"; " "; "b"] [["1"; "2"; "3"]])
  = ["a"; ""; "b"].
Proof. split; reflexivity. Qed.

End header_reader.

(** ** The table lifecycle of the bulk loader *)

Section lifecycle.
Import Py Bulk Spec.

Lemma string_app_assoc (s1 s2 s3 : string) : (s1 +:+ s2) +:+ s3 = s1 +:+ s2 +:+ s3.
Proof.
  induction s1 as [|c s1 IH]; [done|].
  change (String c ((s1 +:+ s2) +:+ s3) = String c (s1 +:+ s2 +:+ s3)).
  by f_equal.
Qed.

Lemma foldl_bulk_insert files cur :
  foldl (λ cur fpath, bulk_insert_file cur SCHEMA TABLE fpath.1) cur files
  = {| table_present := table_present cur;
       executed := executed cur ++ bulk_inserts files |}.
Proof.
  revert cur. induction files as [|fpath files IH]; intros cur; simpl.
  - rewrite app_nil_r. by destruct cur.
  - rewrite IH. simpl. by rewrite <-(assoc_L (++)).
Qed.

(** C9. The run sends one existence probe and its answer alone chooses
    the path.  Table present: the next statement is the [TRUNCATE], and
    nothing of what the files hold is read, so no definition is compared
    with the table.  Table missing: the header of the first file is read
    and the next statement is the [CREATE TABLE] from it, or the run stops
    there when the header is malformed.  The [BULK INSERT]s come after
    that one statement. *)
Theorem lifecycle_by_probe (files : list (string * string)) (cur : cursor) :
  files ≠ [] →
  let probe := (probe_sql, [SCHEMA; TABLE]) in
  let first_csv := default EmptyString (snd <$> head files) in
  if table_present cur then
    main files cur
    = ({| table_present := true;
          executed := executed cur
                      ++ [probe; (truncate_sql SCHEMA TABLE, [])] ++ bulk_inserts files |},
       Ok ())
  else
    match read_header_columns first_csv with
    | Ok cols =>
        main files cur
        = ({| table_present := false;
              executed := executed cur
                          ++ [probe; (create_table_sql SCHEMA TABLE (safe_columns cols), [])]
                          ++ bulk_inserts files |},
           Ok ())
    | Raise e =>
        main files cur
        = ({| table_present := false; executed := executed cur ++ [probe] |}, Raise e)
    end.
Proof.
  intros Hne probe first_csv. destruct files as [|fpath files]; [done|].
  unfold main, prepare_table, table_exists. fold first_csv.
  destruct (table_present cur) eqn:Hpresent.
  - rewrite foldl_bulk_insert. simpl. rewrite Hpresent.
    by rewrite <-!(assoc_L (++)).
  - destruct (read_header_columns first_csv) as [cols|e]; simpl.
    + rewrite foldl_bulk_insert. simpl. rewrite Hpresent.
      by rewrite <-!(assoc_L (++)).
    + unfold execute. by rewrite Hpresent.
Qed.

Lemma lifecycle_by_probe_witness :
  main [("D:\BigCSVs\a.csv", "id,name" +:+ nl +:+ "1,Ann" +:+ nl);
        ("D:\BigCSVs\b.csv", "not, ,read")]
       {| table_present := true; executed := [] |}
  = ({| table_present := true;
        executed := [(probe_sql, [SCHEMA; TABLE]);
                     ("TRUNCATE TABLE [dbo].[BigCsvTable];", []);
                     (bulk_insert_sql SCHEMA TABLE "D:\BigCSVs\a.csv", []);
                     (bulk_insert_sql SCHEMA TABLE "D:\BigCSVs\b.csv", [])] |},
     Ok ()).
Proof.
  apply (lifecycle_by_probe
           [("D:\BigCSVs\a.csv", "id,name" +:+ nl +:+ "1,Ann" +:+ nl);
            ("D:\BigCSVs\b.csv", "not, ,read")]
           {| table_present := true; executed := [] |}).
  done.
Defined.

(** C10. On the header-only path the [CREATE TABLE] statement declares
    one column per header name, each as its bracketed name followed by
    [VARCHAR(4000) NULL]; only the header names enter the statement.  On
    the profiled path the line of a column says [NOT NULL] when the
    profile found no missing value. *)
Theorem header_only_columns_nullable (cur : cursor) (schema table : string)
    (columns : list string) :
  let defs := col_def <$> safe_columns columns in
  executed (create_table_from_header cur schema table columns)
  = executed cur
    ++ [("CREATE TABLE " +:+ qident schema +:+ "." +:+ qident table +:+ " (" +:+ nl +:+
         "  " +:+ join ("," +:+ nl +:+ "  ") defs +:+ nl +:+ ");", [])]
  ∧ Forall2 (λ c d, d = "[" +:+ replace "]" "]]" c +:+ "] VARCHAR(4000) NULL")
      (safe_columns columns) defs
  ∧ ∀ col m,
      Batch.col_line col {| Batch.max_len := m; Batch.nullable := false |}
      = "  [" +:+ Batch.escape_ident col +:+ "] VARCHAR(" +:+ Batch.bucket_size m
        +:+ ") NOT NULL".
Proof.
  intros defs. split; [done|]. split; [|done].
  unfold defs. apply Forall2_fmap_r, Forall_Forall2_diag, Forall_true.
  intros c. unfold compose, col_def, qident. by rewrite !string_app_assoc.
Qed.

End lifecycle.

(** ** Column names on the header-only path *)

Section deduplication.
Import Py Bulk Spec.

#[local] Instance suffixed_inj col : Inj (=) (=) (suffixed col).
Proof.
  intros i j Heq. unfold suffixed in Heq.
  apply (inj (String.app col)), (inj (String.app "_")) in Heq.
  by apply (inj pretty) in Heq.
Qed.

Lemma next_suffix_bounded col seen fuel i :
  let r := next_suffix fuel col seen i in
  i ≤ r ≤ i + Z.of_nat fuel ∧
  (∀ j, i ≤ j < r → suffixed col j ∈ seen) ∧
  (r < i + Z.of_nat fuel → suffixed col r ∉ seen).
Proof.
  revert i. induction fuel as [|fuel IH]; intros i; simpl.
  - split; [lia|]. split; intros; lia.
  - destruct (decide (suffixed col i ∈ seen)) as [Hin|Hout].
    + destruct (IH (i + 1)) as (Hr & Hbelow & Hfree).
      split; [lia|]. split.
      * intros j Hj. destruct (decide (j = i)) as [->|]; [done|].
        apply Hbelow. lia.
      * intros Hlt. apply Hfree. lia.
    + split; [lia|]. split; [intros; lia|done].
Qed.

(** With one step of fuel for each name seen the loop ends: the suffix it
    returns is free and every smaller one from [i] on is taken. *)
Lemma next_suffix_least col seen i :
  let r := next_suffix (size seen) col seen i in
  i ≤ r ∧ (suffixed col r ∉ seen) ∧ ∀ j, i ≤ j < r → suffixed col j ∈ seen.
Proof.
  intros r. destruct (next_suffix_bounded col seen (size seen) i) as (Hr & Hbelow & Hfree).
  fold r in Hr, Hbelow, Hfree.
  split; [lia|]. split; [|done].
  destruct (decide (r < i + Z.of_nat (size seen))) as [|Hfull]; [by apply Hfree|].
  assert (r = i + Z.of_nat (size seen)) as Hr' by lia.
  set (taken := suffixed col <$> seqZ i (Z.of_nat (size seen))).
  assert (NoDup taken) as Hnd by (apply NoDup_fmap_2, NoDup_seqZ; apply _).
  assert (list_to_set taken = seen) as Htaken.
  { apply set_subseteq_size_eq.
    - intros name (j & -> & Hj%elem_of_seqZ)%elem_of_list_to_set%list_elem_of_fmap.
      apply Hbelow. lia.
    - rewrite size_list_to_set by done. unfold taken.
      rewrite length_fmap, length_seqZ. lia. }
  rewrite <-Htaken.
  intros (j & Heq%(inj _) & Hj%elem_of_seqZ)%elem_of_list_to_set%list_elem_of_fmap.
  lia.
Qed.

Lemma renamed_next col (seen : gset string) (acc : list string) :
  seen = list_to_set (C:=gset string) acc →
  let name :=
    if decide (col ∈ seen) then suffixed col (next_suffix (size seen) col seen 2)
    else col in
  renamed acc col name ∧ name ∉ acc.
Proof.
  intros -> name. unfold renamed, name.
  destruct (decide (col ∈ acc)) as [Hin|Hout].
  - rewrite decide_True by by apply elem_of_list_to_set.
    destruct (next_suffix_least col (list_to_set acc) 2) as (Hr & Hfree & Hbelow).
    rewrite elem_of_list_to_set in Hfree. split; [|done].
    eexists. split; [done|]. split; [done|]. split; [done|].
    intros j Hj. rewrite <-(elem_of_list_to_set (C:=gset string)). by apply Hbelow.
  - rewrite decide_False by by rewrite elem_of_list_to_set. done.
Qed.

Lemma safe_columns_go_spec columns (seen : gset string) (acc : list string) :
  seen = list_to_set (C:=gset string) acc → NoDup acc →
  ∃ news, safe_columns_go columns seen acc = acc ++ news ∧
    length news = length columns ∧ NoDup (acc ++ news) ∧
    ∀ n c name, columns !! n = Some c → news !! n = Some name →
                renamed (acc ++ take n news) c name.
Proof.
  revert seen acc. induction columns as [|c columns IH]; intros seen acc Hseen Hnd.
  { exists []. rewrite !app_nil_r. by repeat split. }
  simpl. set (name := if decide (c ∈ seen) then _ else c).
  destruct (renamed_next c seen acc Hseen) as [Hname Hfresh]. fold name in Hname, Hfresh.
  destruct (IH ({[name]} ∪ seen) (acc ++ [name])) as (news & -> & Hlen & Hnd' & Hrule).
  { rewrite Hseen, list_to_set_app_L. simpl.
    rewrite (right_id_L ∅ (∪)). apply (comm_L (∪)). }
  { apply NoDup_app. split; [done|]. split; [|apply NoDup_singleton].
    intros x Hx ->%list_elem_of_singleton. done. }
  exists (name :: news). rewrite <-(assoc_L (++)) in *. simpl in *.
  split; [done|]. split; [by rewrite Hlen|]. split; [done|].
  intros [|n] c' name'; simpl.
  - intros [= <-] [= <-]. by rewrite app_nil_r.
  - intros Hc Hn. specialize (Hrule n c' name' Hc Hn).
    by rewrite <-(assoc_L (++)) in Hrule.
Qed.

(** C8, as amended. The header-only path gives every column a name: as
    many names as the header has, all distinct; a header name that is not
    among the names given so far is kept; a header name [X] that is among
    them becomes [X_i] for the least [i], from 2 on, such that [X_i] is
    not among them.  The header [A, A, A] becomes [A, A_2, A_3]. *)
Theorem header_names_deduplicated (columns : list string) :
  length (safe_columns columns) = length columns ∧
  NoDup (safe_columns columns) ∧
  (∀ n c name, columns !! n = Some c → safe_columns columns !! n = Some name →
               renamed (take n (safe_columns columns)) c name) ∧
  safe_columns ["A"; "A"; "A"] = ["A"; "A_2"; "A_3"].
Proof.
  unfold safe_columns.
  destruct (safe_columns_go_spec columns ∅ []) as (news & -> & Hlen & Hnd & Hrule);
    [done|constructor|].
  simpl in *. split; [done|]. split; [done|]. split; [done|].
  reflexivity.
Qed.

Lemma header_names_deduplicated_witness :
  renamed (take 2 (safe_columns ["A"; "B"; "A"; "A"])) "A" "A_2".
Proof.
  apply (proj1 (proj2 (proj2 (header_names_deduplicated ["A"; "B"; "A"; "A"])))
           2%nat "A" "A_2"); reflexivity.
Defined.

(** C8 as stated fails: the first occurrence of a header name is renamed
    when a name generated before it has taken it. *)
Lemma first_occurrence_renamed :
  ["A"; "A"; "A_2"] !! 2%nat = Some "A_2" ∧
  ("A_2" ∉ take 2 ["A"; "A"; "A_2"]) ∧
  safe_columns ["A"; "A"; "A_2"] = ["A"; "A_2"; "A_2_2"].
Proof. split; [done|]. split; [compute_done|reflexivity]. Qed.

End deduplication.

(** ** Quoting of identifiers and literals *)

Section quoting.
Import Py Spec.

Lemma app_String c s t : String c s +:+ t = String c (s +:+ t).
Proof. reflexivity. Qed.

(** Doubling the closing delimiter is undone by the reader, whatever
    follows the closing delimiter, provided it is not that delimiter
    again. *)
Lemma read_delimited_replace close name rest :
  ¬ starts_with close rest →
  read_delimited close
    (replace close (String close (String close EmptyString)) name +:+ String close rest)
  = Some (name, rest).
Proof.
  intros Hrest. induction name as [|x name IH].
  - change (read_delimited close (String close rest) = Some (EmptyString, rest)).
    simpl. rewrite decide_True by done.
    destruct rest as [|y rest]; [done|].
    rewrite decide_False; [done|]. intros ->. apply Hrest. by eexists.
  - cbn [replace]. rewrite string_app_assoc.
    destruct (decide (x = close)) as [->|Hx].
    + rewrite !app_String. cbn [read_delimited].
      rewrite !decide_True by done.
      change (EmptyString +:+ ?t) with t. by rewrite IH.
    + rewrite !app_String. cbn [read_delimited].
      rewrite decide_False by done.
      change (EmptyString +:+ ?t) with t. by rewrite IH.
Qed.

(** X1. A quoted identifier reads back as the name it was made from: no
    name, whatever brackets it holds, ends the identifier early or runs
    past its end.  The same holds for the inline form of the profiled
    path. *)
Theorem qident_reads_back (name rest : string) :
  ¬ starts_with "]" rest →
  read_bracketed (Bulk.qident name +:+ rest) = Some (name, rest) ∧
  read_bracketed ("[" +:+ Batch.escape_ident name +:+ "]" +:+ rest) = Some (name, rest).
Proof.
  intros Hrest. unfold Bulk.qident, Batch.escape_ident.
  rewrite !string_app_assoc, !app_String.
  change (EmptyString +:+ ?t) with t. cbn [read_bracketed].
  rewrite decide_True by done.
  split; by apply read_delimited_replace.
Qed.

Lemma qident_reads_back_witness :
  read_bracketed (Bulk.qident "a]b]] c" +:+ " VARCHAR(4000) NULL")
  = Some ("a]b]] c", " VARCHAR(4000) NULL") ∧
  read_bracketed ("[" +:+ Batch.escape_ident "a]b]] c" +:+ "]" +:+ " VARCHAR(4000) NULL")
  = Some ("a]b]] c", " VARCHAR(4000) NULL").
Proof.
  apply (qident_reads_back "a]b]] c" " VARCHAR(4000) NULL").
  intros [s' Hs]. discriminate Hs.
Defined.

(** X2. A quoted literal reads back as the text it was made from, so a
    path with apostrophes stays one literal in the [BULK INSERT]
    statement. *)
Theorem qstr_reads_back (s rest : string) :
  ¬ starts_with "'" rest →
  read_quoted (Bulk.qstr s +:+ rest) = Some (s, rest).
Proof.
  intros Hrest. unfold Bulk.qstr.
  rewrite !string_app_assoc, !app_String.
  change (EmptyString +:+ ?t) with t. cbn [read_quoted].
  rewrite decide_True by done.
  by apply read_delimited_replace.
Qed.

Lemma qstr_reads_back_witness :
  read_quoted (Bulk.qstr "D:\it's\a.csv" +:+ nl +:+ "    WITH (")
  = Some ("D:\it's\a.csv", nl +:+ "    WITH (").
Proof.
  apply (qstr_reads_back "D:\it's\a.csv" (nl +:+ "    WITH (")).
  intros [s' Hs]. discriminate Hs.
Defined.

End quoting.

(** ** More on the names of the header-only path *)

Section clean_headers.
Import Py Bulk Spec.

Lemma safe_columns_go_distinct columns (seen : gset string) (acc : list string) :
  seen = list_to_set (C:=gset string) acc → NoDup (acc ++ columns) →
  safe_columns_go columns seen acc = acc ++ columns.
Proof.
  revert seen acc. induction columns as [|c columns IH]; intros seen acc Hseen Hnd.
  { by rewrite app_nil_r. }
  simpl. assert (c ∉ acc) as Hc.
  { apply NoDup_app in Hnd as (_ & Hdisj & _). intros Hin.
    apply (Hdisj c Hin). by left. }
  rewrite decide_False by (by rewrite Hseen, elem_of_list_to_set).
  rewrite (IH _ (acc ++ [c])).
  - by rewrite <-(assoc_L (++)).
  - rewrite Hseen, list_to_set_app_L. simpl.
    rewrite (right_id_L ∅ (∪)). apply (comm_L (∪)).
  - by rewrite <-(assoc_L (++)).
Qed.

Lemma header_names_distinct_aux columns :
  NoDup (safe_columns columns) ∧ length (safe_columns columns) = length columns.
Proof.
  unfold safe_columns.
  destruct (safe_columns_go_spec columns ∅ []) as (news & -> & Hlen & Hnd & _);
    [done|constructor|].
  by split.
Qed.

(** X3. A header whose names are already distinct is left as it is: the
    table is created with exactly the header names, in header order. *)
Theorem safe_columns_distinct (columns : list string) :
  NoDup columns → safe_columns columns = columns.
Proof.
  intros Hnd. unfold safe_columns. by rewrite safe_columns_go_distinct.
Qed.

Lemma safe_columns_distinct_witness :
  safe_columns ["id"; "name"; "name_2"] = ["id"; "name"; "name_2"].
Proof. apply (safe_columns_distinct ["id"; "name"; "name_2"]). compute_done. Defined.

Lemma safe_columns_go_app l1 l2 (seen : gset string) (acc : list string) :
  seen = list_to_set (C:=gset string) acc →
  safe_columns_go (l1 ++ l2) seen acc
  = safe_columns_go l2 (list_to_set (safe_columns_go l1 seen acc))
      (safe_columns_go l1 seen acc).
Proof.
  revert seen acc. induction l1 as [|c l1 IH]; intros seen acc Hseen; simpl.
  - by rewrite Hseen.
  - apply IH. rewrite Hseen, list_to_set_app_L. simpl.
    rewrite (right_id_L ∅ (∪)). apply (comm_L (∪)).
Qed.

(** X4. The name given to a column depends on the columns before it
    only: the names of a header are the first names of any header that
    continues it.  Running the path on its own output changes nothing. *)
Theorem safe_columns_prefix (l1 l2 : list string) :
  take (length l1) (safe_columns (l1 ++ l2)) = safe_columns l1 ∧
  safe_columns (safe_columns l1) = safe_columns l1.
Proof.
  split.
  - unfold safe_columns. rewrite safe_columns_go_app by done.
    destruct (safe_columns_go_spec l1 ∅ []) as (news1 & Heq1 & Hlen1 & Hnd1 & _);
      [done|constructor|].
    rewrite Heq1. simpl in *.
    destruct (safe_columns_go_spec l2 (list_to_set news1) news1)
      as (news2 & -> & _); [done..|].
    by rewrite <-Hlen1, take_app_length.
  - unfold safe_columns at 1. rewrite safe_columns_go_distinct; [done..|].
    by destruct (header_names_distinct_aux l1).
Qed.

End clean_headers.

(** ** The header line of the bulk loader *)

Section header_line.
Import Py Bulk Spec.

Lemma chars_lstrip_by p s : chars (lstrip_by p s) ⊆ chars s.
Proof.
  induction s as [|c s IH]; simpl; [done|].
  destruct (p c); [|done]. intros x Hx. right. by apply IH.
Qed.

Lemma chars_rstrip_by p s : chars (rstrip_by p s) ⊆ chars s.
Proof.
  induction s as [|c s IH]; simpl; [done|].
  destruct (rstrip_by p s) as [|c' r] eqn:Hr.
  - destruct (p c); simpl; [apply list_subseteq_nil|].
    intros x ->%list_elem_of_singleton. by left.
  - simpl. intros x [->|Hx]%elem_of_cons; [by left|]. right. by apply IH.
Qed.

Lemma chars_strip s : chars (strip s) ⊆ chars s.
Proof. unfold strip. etrans; [apply chars_lstrip_by|apply chars_rstrip_by]. Qed.

Lemma lstrip_by_idemp p s : lstrip_by p (lstrip_by p s) = lstrip_by p s.
Proof.
  induction s as [|c s IH]; simpl; [done|].
  destruct (p c) eqn:Hc; [done|]. simpl. by rewrite Hc.
Qed.

Lemma rstrip_by_cons p c s :
  rstrip_by p (String c s)
  = match rstrip_by p s with
    | EmptyString => if p c then EmptyString else String c EmptyString
    | r => String c r
    end.
Proof. reflexivity. Qed.

Lemma rstrip_by_idemp p s : rstrip_by p (rstrip_by p s) = rstrip_by p s.
Proof.
  induction s as [|c s IH]; simpl; [done|].
  destruct (rstrip_by p s) as [|c' r] eqn:Hr.
  - destruct (p c) eqn:Hc; simpl; [done|]. by rewrite Hc.
  - by rewrite rstrip_by_cons, IH.
Qed.

Lemma rstrip_by_lstrip_by p s :
  rstrip_by p s = s → rstrip_by p (lstrip_by p s) = lstrip_by p s.
Proof.
  induction s as [|c s IH]; simpl; [done|].
  destruct (p c) eqn:Hc.
  - destruct (rstrip_by p s) as [|c' r] eqn:Hr; [done|].
    intros [= Heq]. apply IH. by rewrite <-Heq.
  - intros Heq. by rewrite rstrip_by_cons, Hc.
Qed.

Lemma strip_idemp s : strip (strip s) = strip s.
Proof.
  unfold strip.
  rewrite (rstrip_by_lstrip_by _ (rstrip_by isspace s)) by apply rstrip_by_idemp.
  apply lstrip_by_idemp.
Qed.

Lemma split_chars sep s f : f ∈ split sep s → (sep ∉ chars f) ∧ chars f ⊆ chars s.
Proof.
  revert f. induction s as [|c s IH]; intros f; simpl.
  - intros ->%list_elem_of_singleton. split; [apply not_elem_of_nil|done].
  - destruct (decide (c = sep)) as [->|Hc].
    + intros [->|Hin]%elem_of_cons.
      * split; [apply not_elem_of_nil|apply list_subseteq_nil].
      * destruct (IH f Hin) as [? Hsub]. split; [done|].
        intros x Hx. right. by apply Hsub.
    + destruct (split sep s) as [|f0 fs] eqn:Hsplit.
      * intros ->%list_elem_of_singleton. simpl.
        split; [|intros x ->%list_elem_of_singleton; by left].
        by intros ->%list_elem_of_singleton.
      * intros [->|Hin]%elem_of_cons.
        -- destruct (IH f0) as [Hsep Hsub]; [by left|]. simpl. split.
           ++ by intros [->|?]%elem_of_cons.
           ++ intros x [->|Hx]%elem_of_cons; [by left|]. right. by apply Hsub.
        -- destruct (IH f) as [? Hsub]; [by right|]. split; [done|].
           intros x Hx. right. by apply Hsub.
Qed.

Lemma rstrip_by_snoc p s c :
  p c = true → rstrip_by p (s +:+ String c EmptyString) = rstrip_by p s.
Proof.
  intros Hc. induction s as [|x s IH].
  - simpl. by rewrite Hc.
  - by rewrite app_String, !rstrip_by_cons, IH.
Qed.

Lemma readline_line line rest :
  "010"%char ∉ chars line →
  readline line = line ∧ readline (line +:+ nl +:+ rest) = line +:+ nl.
Proof.
  induction line as [|c line IH]; simpl.
  - intros _. split; [done|]. reflexivity.
  - intros [Hc Hline]%not_elem_of_cons. rewrite decide_False by done.
    destruct (IH Hline) as [-> Hnl]. split; [done|].
    rewrite app_String. cbn [readline]. rewrite decide_False by done.
    by rewrite Hnl.
Qed.

Lemma readline_chars s :
  ∃ line, ("010"%char ∉ chars line) ∧ (readline s = line ∨ readline s = line +:+ nl).
Proof.
  induction s as [|c s (line & Hline & IH)]; simpl.
  - exists EmptyString. split; [apply not_elem_of_nil|by left].
  - destruct (decide (c = "010"%char)) as [->|Hc].
    + exists EmptyString. split; [apply not_elem_of_nil|by right].
    + exists (String c line). split; [by apply not_elem_of_cons|].
      destruct IH as [->| ->]; [by left|by right].
Qed.

Lemma header_line_chars first_csv :
  "010"%char ∉ chars (rstrip_crlf (readline first_csv)).
Proof.
  destruct (readline_chars first_csv) as (line & Hline & [->| ->]).
  - intros Hin. eapply Hline, chars_rstrip_by, Hin.
  - unfold rstrip_crlf, nl. rewrite rstrip_by_snoc by done.
    intros Hin. eapply Hline, chars_rstrip_by, Hin.
Qed.

(** X5. The names the header reader returns are well formed: there is
    at least one, and each is non-empty, has no white space at either
    end, and holds neither the field delimiter nor a line feed. *)
Theorem read_header_columns_names (first_csv : string) (cols : list string) :
  read_header_columns first_csv = Ok cols →
  cols ≠ [] ∧
  Forall (λ c, c ≠ EmptyString ∧ strip c = c ∧
               (FIELDTERMINATOR ∉ chars c) ∧ "010"%char ∉ chars c) cols.
Proof.
  destruct (bulk_read_header_columns_spec first_csv) as (Hne & Hraise & Hok).
  cbn zeta in *.
  set (fields := strip <$> split FIELDTERMINATOR (rstrip_crlf (readline first_csv))) in *.
  destruct (decide (EmptyString ∈ fields)) as [Hin|Hout].
  { rewrite (Hraise Hin). done. }
  rewrite (Hok Hout). intros [= <-]. split; [done|].
  apply Forall_forall. intros c Hc. split; [by intros ->|].
  apply list_elem_of_fmap in Hc as (f & -> & Hf).
  split; [apply strip_idemp|].
  destruct (split_chars _ _ _ Hf) as [Hsep Hsub].
  split; intros Hin%chars_strip; [done|].
  by apply (header_line_chars first_csv), Hsub.
Qed.

Lemma read_header_columns_names_witness :
  ["id"; "first name"] ≠ [] ∧
  Forall (λ c, c ≠ EmptyString ∧ strip c = c ∧
               (FIELDTERMINATOR ∉ chars c) ∧ "010"%char ∉ chars c)
         ["id"; "first name"].
Proof.
  apply (read_header_columns_names (" id , first name " +:+ nl +:+ "1,Ann B" +:+ nl)).
  reflexivity.
Defined.

(** X6. Only the first line of the file is read: what follows the first
    line feed, and the line feed itself, change nothing. *)
Theorem read_header_columns_first_line (line rest : string) :
  "010"%char ∉ chars line →
  read_header_columns (line +:+ nl +:+ rest) = read_header_columns line.
Proof.
  intros Hline. unfold read_header_columns.
  destruct (readline_line line rest Hline) as [-> ->].
  unfold rstrip_crlf, nl. by rewrite rstrip_by_snoc.
Qed.

Lemma read_header_columns_first_line_witness :
  read_header_columns ("id,name" +:+ nl +:+ "1, " +:+ nl) = read_header_columns "id,name".
Proof.
  apply (read_header_columns_first_line "id,name" ("1, " +:+ nl)). compute_done.
Defined.

End header_line.

(** ** The load pass as a whole *)

Section load_pass.
Import Py Batch Spec.



(** X9. The load pass only appends: however it ends, the table it leaves
    begins with the table it found, and what the files before a failing
    one added stays. *)
Theorem load_only_appends (k : positive) (files : list csv_file)
    (columns : list string) (table : list (list cell)) :
  table `prefix_of` (load_all_csvs k files columns table).1.
Proof.
  revert table. induction files as [|f files IH]; intros table; simpl; [done|].
  rewrite load_frames_read_csv.
  destruct (lacking (header f) columns); [|done].
  etrans; [|apply IH]. by apply prefix_app_r.
Qed.

Lemma load_rows_added k files columns table table' :
  load_all_csvs k files columns table = (table', Ok ()) →
  table' = table ++ (files ≫= file_rows columns) ∧
  length table' = (length table + sum_list (length ∘ rows <$> files))%nat.
Proof.
  revert table. induction files as [|f files IH]; intros table; simpl.
  - intros [= <-]. by rewrite app_nil_r, Nat.add_0_r.
  - rewrite load_frames_read_csv.
    destruct (lacking (header f) columns); [|done].
    intros [-> Hlen]%IH. split; [by rewrite <-(assoc_L (++))|].
    rewrite Hlen, length_app. unfold file_rows. rewrite length_fmap.
    exact (eq_sym (Nat.add_assoc _ _ _)).
Qed.

Lemma load_Ok_lacking k files columns table table' :
  load_all_csvs k files columns table = (table', Ok ()) →
  Forall (λ f, lacking (header f) columns = []) files.
Proof.
  revert table. induction files as [|f files IH]; intros table; [done|].
  cbn [load_all_csvs]. rewrite load_frames_read_csv.
  destruct (lacking (header f) columns) eqn:Hlack; [|done].
  intros Hload. constructor; [done|by eapply IH].
Qed.

(** A file with distinct trimmed labels has a canonical column it does
    not lack under exactly one label. *)
Lemma lacking_nil_carries cols f :
  NoDup (strip <$> header f) → lacking (header f) cols = [] → carries cols f.
Proof.
  intros Hnd Hlack c Hc.
  pose proof (positions_from_at_most_one 0 c (header f) Hnd) as Hlen.
  destruct (positions_from 0 c (header f)) as [|j [|j' js]] eqn:Hpos.
  - assert (c ∈ lacking (header f) cols) as Hin by (by apply list_elem_of_filter).
    rewrite Hlack in Hin. by apply elem_of_nil in Hin.
  - by exists j.
  - simpl in Hlen. lia.
Qed.

Lemma realign_length js row : length (realign js row) = length js.
Proof. unfold realign. apply length_fmap. Qed.

Lemma aligned_length cols f : carries cols f → length (aligned (header f) cols) = length cols.
Proof.
  intros Hf. rewrite <-(canonical_part_header cols f) at 2 by done.
  unfold canonical_part, permute_columns, pick. cbn [header].
  by rewrite !length_fmap.
Qed.

(** X10. The corpus is one of well-formed files, each with distinct
    trimmed labels, and the canonical names are distinct.  A load pass
    that ends without exception has added every data row of every file,
    one table row for each, in manifest order, and each added row has one
    cell for each canonical column. *)
Theorem load_adds_every_row (k : positive) (files : list csv_file)
    (columns : list string) (table table' : list (list cell)) :
  NoDup columns →
  Forall well_formed files →
  Forall (λ f, NoDup (strip <$> header f)) files →
  load_all_csvs k files columns table = (table', Ok ()) →
  table' = table ++ (files ≫= file_rows columns) ∧
  length table' = (length table + sum_list (length ∘ rows <$> files))%nat ∧
  Forall (λ row, length row = length columns) (files ≫= file_rows columns).
Proof.
  intros _ _ Hlabels Hload.
  destruct (load_rows_added k files columns table table' Hload) as [-> Hlen].
  split; [done|]. split; [done|]. clear Hlen.
  apply load_Ok_lacking in Hload.
  induction Hlabels as [|f files Hf _ IH]; [done|].
  apply Forall_cons in Hload as [Hlack Hload].
  rewrite bind_cons. apply Forall_app. split; [|by apply IH].
  unfold file_rows. apply Forall_fmap, Forall_true. intros row. simpl.
  rewrite realign_length. by apply aligned_length, lacking_nil_carries.
Qed.

Lemma load_adds_every_row_witness :
  let files := [mkCsv ["a"; "b"] [["1"; "2"]; ["3"; "4"]]; mkCsv ["b"; "a"] [["6"; "5"]]] in
  [[Some "1"; Some "2"]; [Some "3"; Some "4"]; [Some "5"; Some "6"]]
  = [] ++ (files ≫= file_rows ["a"; "b"]) ∧
  length [[Some "1"; Some "2"]; [Some "3"; Some "4"]; [Some "5"; Some "6"]]
  = (length (@nil (list cell)) + sum_list (length ∘ rows <$> files))%nat ∧
  Forall (λ row, length row = length ["a"; "b"]) (files ≫= file_rows ["a"; "b"]).
Proof.
  intros files.
  apply (load_adds_every_row 2 files ["a"; "b"] []
           [[Some "1"; Some "2"]; [Some "3"; Some "4"]; [Some "5"; Some "6"]]).
  - compute_done.
  - compute_done.
  - compute_done.
  - reflexivity.
Defined.

End load_pass.

(** ** The profile as a whole and the schema made from it *)

Section profile_and_schema.
Import Py Batch Spec.

Lemma upd_grows stats u :
  Forall2 (λ a b, a.1 = b.1 ∧ grows a.2 b.2) stats (upd stats u).
Proof.
  unfold upd, dict_adjust. apply Forall2_fmap_r, Forall_Forall2_diag, Forall_true.
  intros [k st]. simpl. destruct (decide (k = u.1)); simpl.
  - split; [done|]. rewrite absorb_spec. split; simpl; [lia|].
    intros ->. done.
  - by repeat split.
Qed.

(** X11. A chunk never takes back what earlier chunks found: over any
    run of chunks the profile keeps its columns and their order, no width
    shrinks and no column goes from nullable to not nullable. *)
Theorem profile_only_grows (frames : list DataFrame) (columns : list string)
    (stats stats' : dict col_stats) :
  profile_frames frames columns stats = Ok stats' →
  Forall2 (λ a b, a.1 = b.1 ∧ grows a.2 b.2) stats stats'.
Proof.
  rewrite profile_frames_plan. destruct (plan frames columns) as [us|]; [|done].
  simpl. intros [= <-]. revert stats.
  induction us as [|u us IH]; intros stats; simpl.
  - apply Forall_Forall2_diag, Forall_true. intros [k st]. by repeat split.
  - eapply Forall2_trans; [|apply upd_grows|apply IH].
    intros a b c [-> [Hm Hn]] [-> [Hm' Hn']]. split; [done|].
    split; [lia|auto].
Qed.

Lemma profile_only_grows_witness :
  Forall2 (λ a b, a.1 = b.1 ∧ grows a.2 b.2)
    [("a", {| max_len := 7; nullable := true |}); ("b", {| max_len := 0; nullable := false |})]
    [("a", {| max_len := 7; nullable := true |}); ("b", {| max_len := 2; nullable := false |})].
Proof.
  apply (profile_only_grows (read_csv 1 (mkCsv ["a"; "b"] [["1"; "22"]; ["333"; "4"]]))
           ["a"; "b"]).
  reflexivity.
Defined.

Lemma dict_set_fresh {V} k (v : V) (d : dict V) :
  k ∉ d.*1 → dict_set k v d = d ++ [(k, v)].
Proof.
  induction d as [|[k' v'] d IH]; simpl; [done|].
  intros [Hk Hd]%not_elem_of_cons. rewrite decide_False by done.
  by rewrite IH.
Qed.

Lemma init_stats_from (d : dict col_stats) cols v :
  NoDup (d.*1 ++ cols) →
  foldl (λ d c, dict_set c v d) d cols = d ++ ((λ c, (c, v)) <$> cols).
Proof.
  revert d. induction cols as [|c cols IH]; intros d Hnd; simpl.
  - by rewrite app_nil_r.
  - assert (c ∉ d.*1) as Hc.
    { apply NoDup_app in Hnd as (_ & Hdisj & _). intros Hin.
      apply (Hdisj c Hin). by left. }
    rewrite dict_set_fresh by done. rewrite IH.
    + by rewrite <-(assoc_L (++)).
    + by rewrite fmap_app, <-(assoc_L (++)).
Qed.

Lemma foldl_upd_keys us (stats : dict col_stats) : (foldl upd stats us).*1 = stats.*1.
Proof.
  revert stats. induction us as [|u us IH]; intros stats; simpl; [done|].
  rewrite IH. unfold upd, dict_adjust. rewrite <-list_fmap_compose.
  apply list_fmap_ext. intros _ [k st] _. simpl. by case_decide.
Qed.

Lemma dict_of_entries {V} (g : string → V) (d : dict V) :
  NoDup d.*1 → (∀ k, k ∈ d.*1 → dict_get k d = Some (g k)) →
  d = (λ k, (k, g k)) <$> d.*1.
Proof.
  induction d as [|[k v] d IH]; simpl; [done|].
  intros [Hk Hnd]%NoDup_cons Hget.
  pose proof (Hget k ltac:(by left)) as Hhead.
  rewrite decide_True in Hhead by done. injection Hhead as ->.
  f_equal. apply IH; [done|]. intros k' Hk'.
  specialize (Hget k' ltac:(by right)).
  rewrite decide_False in Hget; [done|]. by intros ->.
Qed.

Lemma profile_entry k files cols col :
  NoDup cols → Forall (carries cols) files → col ∈ cols →
  ∃ stats, profile_max_lengths k files cols = Ok stats ∧
    dict_get col stats = Some (column_summary files col).
Proof.
  intros Hnd Hall Hin. unfold profile_max_lengths, column_summary.
  rewrite profile_files_carries by done. eexists. split; [done|].
  rewrite dict_get_foldl_upd, dict_get_init by done. simpl. f_equal.
  rewrite foldl_absorb by done. simpl.
  rewrite corpus_contributions by done.
  rewrite str_len_read_cell, isna_any_read_cell. f_equal.
  assert (0 ≤ foldr Z.max 0 (token_width <$> files ≫= tokens_of col)); [|lia].
  generalize (token_width <$> files ≫= tokens_of col). intros l.
  induction l; simpl; lia.
Qed.

Lemma profile_value k files columns :
  NoDup columns → Forall (carries columns) files →
  profile_max_lengths k files columns
  = Ok ((λ c, (c, column_summary files c)) <$> columns).
Proof.
  intros Hnd Hall.
  assert (∃ stats, profile_max_lengths k files columns = Ok stats ∧
                   stats.*1 = columns) as (stats & Hstats & Hkeys).
  { unfold profile_max_lengths. rewrite profile_files_carries by done.
    eexists. split; [done|]. rewrite foldl_upd_keys. unfold init_stats.
    rewrite (init_stats_from []) by done. simpl.
    rewrite <-list_fmap_compose. apply list_fmap_id. }
  rewrite Hstats. f_equal. rewrite <-Hkeys.
  apply dict_of_entries; [by rewrite Hkeys|].
  intros c Hc. rewrite Hkeys in Hc.
  destruct (profile_entry k files columns c Hnd Hall Hc) as (stats' & Hstats' & Hget).
  congruence.
Qed.

(** X12. The profile of a corpus of well-formed files that all carry the
    canonical columns, the names distinct: one entry for each canonical
    column, in header order, holding what the whole corpus has in that
    column. *)
Theorem profile_of_corpus (k : positive) (files : list csv_file) (columns : list string) :
  NoDup columns → Forall well_formed files → Forall (carries columns) files →
  profile_max_lengths k files columns
  = Ok ((λ c, (c, column_summary files c)) <$> columns).
Proof. intros Hnd _ Hall. by apply profile_value. Qed.


Lemma profile_of_corpus_witness :
  let files := [mkCsv ["Id"; "Name"] [["1"; ""]; ["2"; "Jon"]];
                mkCsv ["Name "; "Id"] [["Alexandra"; "3"]]] in
  profile_max_lengths 1 files ["Id"; "Name"]
  = Ok ((λ c, (c, column_summary files c)) <$> ["Id"; "Name"]).
Proof.
  intros files. apply (profile_of_corpus 1 files ["Id"; "Name"]).
  - compute_done.
  - compute_done.
  - repeat constructor; intros c [->|[->|[]%elem_of_nil]%elem_of_cons]%elem_of_cons;
      by eexists.
Defined.

Lemma locate_Ok_carries cols f js :
  locate (header f) cols = Ok js → carries cols f.
Proof.
  intros Hjs c Hc. rewrite <-(locate_fst _ _ _ Hjs) in Hc.
  apply list_elem_of_fmap in Hc as ([c' j] & -> & Hin).
  exists j. by eapply locate_lookup.
Qed.

Lemma profile_files_Ok k files cols stats stats' :
  profile_files k files cols stats = Ok stats' → Forall (carries cols) files.
Proof.
  revert stats. induction files as [|f files IH]; intros stats; simpl; [done|].
  rewrite profile_frames_read_csv.
  destruct (locate (header f) cols) as [js|] eqn:Hjs; [|done].
  simpl. intros Hrest. constructor; [by eapply locate_Ok_carries|by eapply IH].
Qed.

(** X13. On a corpus of well-formed files the profiling pass returns a
    profile exactly when every file has each canonical column under one
    label; otherwise it raises and no profile, not even a partial one, is
    returned. *)
Theorem profile_succeeds_iff (k : positive) (files : list csv_file) (columns : list string) :
  Forall well_formed files →
  (∃ stats, profile_max_lengths k files columns = Ok stats)
  ↔ Forall (carries columns) files.
Proof.
  intros _. split.
  - intros [stats Hstats]. by eapply profile_files_Ok.
  - intros Hall. unfold profile_max_lengths.
    rewrite profile_files_carries by done. by eexists.
Qed.

Lemma profile_succeeds_iff_witness :
  let files := [mkCsv ["Id"; "Name"] [["1"; ""]; ["2"; "Jon"]];
                mkCsv ["Name "; "Id"; "Town"] [["Alexandra"; "3"]]] in
  (∃ stats, profile_max_lengths 1 files ["Id"; "Name"] = Ok stats)
  ↔ Forall (carries ["Id"; "Name"]) files.
Proof.
  intros files. apply (profile_succeeds_iff 1 files ["Id"; "Name"]). compute_done.
Defined.

Lemma bucket_width_covers m : width_le (Fixed m) (bucket_width m).
Proof.
  unfold bucket_width, VARCHAR_MAX_THRESHOLD, BUCKETS, first_bucket.
  repeat case_decide; simpl; lia.
Qed.

Lemma width_le_trans a b c : width_le a b → width_le b c → width_le a c.
Proof. destruct a, b, c; simpl; try done. lia. Qed.

(** X14. The sizer never undersizes: the width it returns for an
    observed width is that width or more, or unbounded. *)
Theorem bucket_size_covers (m : Z) :
  size_le (width_text (Fixed m)) (bucket_size m).
Proof.
  exists (Fixed m), (bucket_width m). split; [done|].
  split; [apply bucket_size_width|apply bucket_width_covers].
Qed.

(** X15. Every configured bucket is sized to itself, so sizing a column
    that is exactly as wide as a bucket does not move it to the next
    one. *)
Theorem bucket_size_of_bucket (b : Z) :
  b ∈ BUCKETS → bucket_size b = str b.
Proof.
  unfold BUCKETS. intros Hb.
  repeat (apply elem_of_cons in Hb as [->|Hb]; [reflexivity|]).
  by apply elem_of_nil in Hb.
Qed.

Lemma bucket_size_of_bucket_witness : bucket_size 255 = str 255.
Proof. apply (bucket_size_of_bucket 255). compute_done. Defined.

Lemma foldr_max_ge (l : list Z) x : x ∈ l → x ≤ foldr Z.max 0 l.
Proof.
  induction l as [|y l IH]; simpl; [by intros ?%elem_of_nil|].
  intros [->|Hin]%elem_of_cons; [lia|]. specialize (IH Hin). lia.
Qed.

(** X16. No value outgrows its column: in the profile of a corpus of
    well-formed files that carry the canonical columns, the width the
    sizer gives to a column is at least the width of every token the
    corpus holds in that column, or is unbounded. *)
Theorem profiled_width_fits (k : positive) (files : list csv_file)
    (columns : list string) (col tok : string) :
  NoDup columns → Forall well_formed files → Forall (carries columns) files →
  col ∈ columns → tok ∈ files ≫= tokens_of col →
  ∃ stats st, profile_max_lengths k files columns = Ok stats ∧
    dict_get col stats = Some st ∧
    size_le (width_text (Fixed (token_width tok))) (bucket_size (max_len st)).
Proof.
  intros Hnd _ Hall Hcol Htok.
  destruct (profile_entry k files columns col Hnd Hall Hcol) as (stats & Hstats & Hget).
  exists stats, (column_summary files col). split; [done|]. split; [done|].
  exists (Fixed (token_width tok)), (bucket_width (max_len (column_summary files col))).
  split; [done|]. split; [apply bucket_size_width|].
  eapply width_le_trans; [apply bucket_width_covers|].
  apply bucket_width_mono. simpl. apply foldr_max_ge.
  apply list_elem_of_fmap. by exists tok.
Qed.

Lemma profiled_width_fits_witness :
  let files := [mkCsv ["Id"; "Name"] [["1"; ""]; ["2"; "Jon"]];
                mkCsv ["Name "; "Id"] [["Alexandra"; "3"]]] in
  ∃ stats st, profile_max_lengths 1 files ["Id"; "Name"] = Ok stats ∧
    dict_get "Name" stats = Some st ∧
    size_le (width_text (Fixed (token_width "Alexandra"))) (bucket_size (max_len st)).
Proof.
  intros files. apply (profiled_width_fits 1 files ["Id"; "Name"] "Name" "Alexandra").
  - compute_done.
  - compute_done.
  - repeat constructor; intros c [->|[->|[]%elem_of_nil]%elem_of_cons]%elem_of_cons;
      by eexists.
  - compute_done.
  - compute_done.
Defined.

(** X17. Profiling and schema generation together, on a corpus of
    well-formed files that carry the canonical columns: the [CREATE TABLE]
    text declares the canonical columns in header order, one line each,
    the name bracketed with its closing brackets doubled, the width the
    bucket of the longest token of the column in the whole corpus, and
    [NOT NULL] exactly when no token of the column is read as missing. *)
Theorem create_table_of_corpus (k : positive) (files : list csv_file)
    (columns : list string) :
  NoDup columns → Forall well_formed files → Forall (carries columns) files →
  ∃ stats, profile_max_lengths k files columns = Ok stats ∧
    generate_create_table_sql stats
    = "IF OBJECT_ID(N'[dbo].[BigCsvTable]', N'U') IS NOT NULL" +:+ nl +:+
      "    DROP TABLE [dbo].[BigCsvTable];" +:+ nl +:+
      "GO" +:+ nl +:+
      "CREATE TABLE [dbo].[BigCsvTable] (" +:+ nl +:+
      join ("," +:+ nl)
        ((λ c, "  [" +:+ replace "]" "]]" c +:+ "] VARCHAR("
               +:+ bucket_size (foldr Z.max 0 (token_width <$> files ≫= tokens_of c))
               +:+ ") "
               +:+ (if existsb absent (files ≫= tokens_of c) then "NULL" else "NOT NULL"))
           <$> columns)
      +:+ nl +:+ ");".
Proof.
  intros Hnd _ Hall. eexists. split; [by apply profile_value|].
  unfold generate_create_table_sql. rewrite <-list_fmap_compose.
  rewrite !string_app_assoc. reflexivity.
Qed.

Lemma create_table_of_corpus_witness :
  ∃ stats,
    profile_max_lengths 1 [mkCsv ["Id"; "Full] Name"] [["1"; ""]; ["2"; "Alexandra"]]]
      ["Id"; "Full] Name"] = Ok stats ∧
    generate_create_table_sql stats
    = "IF OBJECT_ID(N'[dbo].[BigCsvTable]', N'U') IS NOT NULL" +:+ nl +:+
      "    DROP TABLE [dbo].[BigCsvTable];" +:+ nl +:+
      "GO" +:+ nl +:+
      "CREATE TABLE [dbo].[BigCsvTable] (" +:+ nl +:+
      "  [Id] VARCHAR(1) NOT NULL," +:+ nl +:+
      "  [Full]] Name] VARCHAR(10) NULL" +:+ nl +:+ ");".
Proof.
  apply (create_table_of_corpus 1
           [mkCsv ["Id"; "Full] Name"] [["1"; ""]; ["2"; "Alexandra"]]] ["Id"; "Full] Name"]).
  - compute_done.
  - compute_done.
  - repeat constructor; intros c [->|[->|[]%elem_of_nil]%elem_of_cons]%elem_of_cons;
      by eexists.
Defined.


End profile_and_schema.

(** ** The batches of the generated text *)

Section batches_of_text.
Import Py Batch Spec.

Lemma scan_GO_app p s1 s2 :
  scan_GO p (s1 +:+ s2) = scan_GO p s1 ≫= λ p', scan_GO p' s2.
Proof.
  revert p. induction s1 as [|c s1 IH]; intros p; [done|].
  rewrite app_String. simpl. destruct (p && bool_decide (c = "O"%char)); [done|].
  apply IH.
Qed.

Lemma scan_GO_weaken p s : scan_GO false s = None → scan_GO p s = None.
Proof.
  destruct s as [|c s]; simpl; [done|].
  intros Hs. by destruct (p && bool_decide (c = "O"%char)).
Qed.

Lemma startswith_GO c s :
  startswith "GO" (String c s) = bool_decide (c = "G"%char) && startswith "O" s.
Proof.
  cbn [startswith]. f_equal. apply bool_decide_ext. split; by intros ->.
Qed.

Lemma startswith_O c s : startswith "O" (String c s) = bool_decide (c = "O"%char).
Proof.
  cbn [startswith]. rewrite andb_true_r. apply bool_decide_ext. split; by intros ->.
Qed.

Lemma scan_GO_occurs p s :
  scan_GO p s = None ↔ (p = true ∧ startswith "O" s = true) ∨ occurs "GO" s = true.
Proof.
  revert p. induction s as [|c s IH]; intros p.
  - simpl. split; [done|]. by intros [[_ ?]|?].
  - cbn [scan_GO occurs]. rewrite startswith_GO, startswith_O.
    destruct (bool_decide_reflect (c = "O"%char)) as [->|Ho].
    + rewrite (bool_decide_eq_false_2 ("O"%char = "G"%char)) by done.
      rewrite andb_true_r. cbn [andb orb]. destruct p; cbn [andb orb].
      * split; [by left|done].
      * rewrite IH. split; (intros [[? _]|?]; [done|by right]).
    + rewrite andb_false_r. cbn [andb orb]. rewrite IH.
      destruct (bool_decide (c = "G"%char)); cbn [andb orb].
      * rewrite orb_true_iff. split; [intros [[_ ?]|?]|intros [[_ ?]|[?|?]]];
          try done; auto.
      * split; (intros [[??]|?]; [done|by right]).
Qed.

Lemma scan_GO_free s : occurs "GO" s = false → ∃ q, scan_GO false s = Some q.
Proof.
  intros Hs. destruct (scan_GO false s) as [q|] eqn:Hscan; [by eexists|].
  apply scan_GO_occurs in Hscan as [[? _]|?]; congruence.
Qed.

Lemma scan_GO_Some p q s : scan_GO p s = Some q → occurs "GO" s = false.
Proof.
  intros Hs. destruct (occurs "GO" s) eqn:Ho; [|done].
  assert (scan_GO p s = None) by (apply scan_GO_occurs; by right). congruence.
Qed.

Lemma split_GO_none p q s : scan_GO p s = Some q → split_str_go "GO" 0 s = [s].
Proof.
  revert p. induction s as [|c s IH]; intros p; [done|].
  cbn [scan_GO split_str_go]. rewrite startswith_GO.
  destruct (p && bool_decide (c = "O"%char)); [done|]. intros Hs.
  rewrite (IH _ Hs).
  destruct (bool_decide (c = "G"%char)) eqn:Hg; cbn [andb]; [|done].
  destruct (startswith "O" s) eqn:Ho; [|done].
  assert (scan_GO true s = None) by (apply scan_GO_occurs; by left). congruence.
Qed.

Lemma split_GO_once p q q' a b :
  scan_GO p a = Some q → scan_GO false b = Some q' →
  split_str "GO" (a +:+ "GO" +:+ b) = [a; b].
Proof.
  intros Ha Hb. unfold split_str. revert p Ha.
  induction a as [|c a IH]; intros p Ha.
  - change (EmptyString +:+ "GO" +:+ b) with (String "G" (String "O" b)).
    cbn [split_str_go]. rewrite startswith_GO, startswith_O. simpl.
    by rewrite (split_GO_none _ _ _ Hb).
  - rewrite app_String. cbn [scan_GO split_str_go] in *. rewrite startswith_GO.
    destruct (p && bool_decide (c = "O"%char)); [done|].
    rewrite (IH _ Ha).
    destruct (bool_decide (c = "G"%char)) eqn:Hg; cbn [andb]; [|done].
    destruct a as [|d a].
    + by change (EmptyString +:+ "GO" +:+ b) with (String "G" (String "O" b)).
    + rewrite app_String, startswith_O. cbn [scan_GO] in Ha.
      by destruct (bool_decide (d = "O"%char)).
Qed.

Lemma split_head sep s d f fs :
  split_str_go sep 0 s = String d f :: fs → ∃ s', s = String d s'.
Proof.
  destruct s as [|c s]; [done|]. cbn [split_str_go].
  destruct (startswith sep (String c s)); [done|].
  destruct (split_str_go sep 0 s); intros [= -> _]; by eexists.
Qed.

Lemma split_GO_pieces skip s :
  Forall (λ f, is_Some (scan_GO false f)) (split_str_go "GO" skip s).
Proof.
  revert skip. induction s as [|c s IH]; intros skip.
  { repeat constructor. by eexists. }
  cbn [split_str_go]. destruct skip as [|n]; [|apply IH].
  destruct (startswith "GO" (String c s)) eqn:Hst.
  { constructor; [by eexists|apply IH]. }
  pose proof (IH 0%nat) as Hall.
  destruct (split_str_go "GO" 0 s) as [|f fs] eqn:Hsplit.
  { repeat constructor. by eexists. }
  apply Forall_cons in Hall as [Hf Hfs]. constructor; [|done].
  cbn [scan_GO andb]. rewrite startswith_GO in Hst.
  destruct (bool_decide (c = "G"%char)); [|done].
  destruct f as [|d f]; [by eexists|].
  destruct (split_head _ _ _ _ _ Hsplit) as [s' ->].
  rewrite startswith_O in Hst. cbn [andb] in Hst.
  cbn [scan_GO andb] in *. by rewrite Hst.
Qed.

Lemma lstrip_by_suffix p s : ∃ t, s = t +:+ lstrip_by p s.
Proof.
  induction s as [|c s [t IH]]; [by exists EmptyString|]. simpl.
  destruct (p c); [|by exists EmptyString].
  exists (String c t). rewrite app_String. by f_equal.
Qed.

Lemma rstrip_by_prefix p s : ∃ t, s = rstrip_by p s +:+ t.
Proof.
  induction s as [|c s [t IH]]; [by exists EmptyString|].
  rewrite rstrip_by_cons. destruct (rstrip_by p s) as [|c' r].
  - destruct (p c); [by eexists|]. exists s. done.
  - exists t. rewrite app_String. by f_equal.
Qed.

Lemma scan_GO_inside t1 m t2 :
  is_Some (scan_GO false (t1 +:+ m +:+ t2)) → is_Some (scan_GO false m).
Proof.
  rewrite !scan_GO_app. intros [q Hq].
  destruct (scan_GO false t1) as [q1|]; [|done].
  destruct (scan_GO false m) as [q2|] eqn:Hm; [by eexists|].
  simpl in Hq. by rewrite scan_GO_app, (scan_GO_weaken q1 m Hm) in Hq.
Qed.

Lemma scan_GO_strip s : is_Some (scan_GO false s) → is_Some (scan_GO false (strip s)).
Proof.
  unfold strip. intros Hs.
  destruct (rstrip_by_prefix isspace s) as [t2 H2].
  destruct (lstrip_by_suffix isspace (rstrip_by isspace s)) as [t1 H1].
  rewrite H2, H1, string_app_assoc in Hs. by eapply scan_GO_inside.
Qed.

Lemma batches_free_of_GO_aux (create_sql b : string) :
  b ∈ batches create_sql → occurs "GO" b = false.
Proof.
  unfold batches. intros [_ Hb]%list_elem_of_filter.
  apply list_elem_of_fmap in Hb as (f & -> & Hf).
  pose proof (split_GO_pieces 0 create_sql) as Hall.
  rewrite Forall_forall in Hall.
  destruct (scan_GO_strip f (Hall f Hf)) as [q Hq].
  by eapply scan_GO_Some.
Qed.

Lemma string_app_nil_r_aux (s : string) : s +:+ EmptyString = s.
Proof. induction s as [|c s IH]; [done|]. rewrite app_String. by f_equal. Qed.

(** X18. No statement that [drop_and_create_table] executes holds the
    letters [GO] in a row: the text is cut at every [GO], also inside a
    name, so a statement with a name such as [CATEGORY] is never sent
    whole. *)
Theorem batches_free_of_GO (create_sql b : string) :
  b ∈ batches create_sql → occurs "GO" b = false.
Proof. apply batches_free_of_GO_aux. Qed.

Lemma batches_free_of_GO_witness :
  occurs "GO" ("CREATE TABLE [dbo].[BigCsvTable] (" +:+ nl +:+ "  [CATE") = false.
Proof.
  apply (batches_free_of_GO
           (generate_create_table_sql [("CATEGORY", {| max_len := 3; nullable := true |})])).
  compute_done.
Defined.


Lemma scan_GO_escape p s : scan_GO p (escape_ident s) = scan_GO p s.
Proof.
  unfold escape_ident. revert p. induction s as [|c s IH]; intros p; [done|].
  cbn [replace]. destruct (decide (c = "]"%char)) as [->|Hc].
  - rewrite !app_String. change (EmptyString +:+ ?t) with t.
    cbn [scan_GO]. rewrite !andb_false_r. cbn [andb]. apply IH.
  - rewrite app_String. change (EmptyString +:+ ?t) with t.
    cbn [scan_GO]. destruct (p && bool_decide (c = "O"%char)); [done|]. apply IH.
Qed.

Lemma scan_GO_bucket_size m : scan_GO false (bucket_size m) = Some false.
Proof.
  unfold bucket_size, VARCHAR_MAX_THRESHOLD, BUCKETS, first_bucket.
  repeat case_decide; reflexivity.
Qed.

Lemma scan_GO_col_line col info q :
  scan_GO false col = Some q → ∀ p, scan_GO p (col_line col info) = Some false.
Proof.
  intros Hcol p. unfold col_line.
  rewrite scan_GO_app.
  assert (scan_GO p "  [" = Some false) as -> by (by destruct p).
  cbn [mbind option_bind]. rewrite scan_GO_app, scan_GO_escape, Hcol.
  cbn [mbind option_bind]. rewrite scan_GO_app.
  assert (scan_GO q "] VARCHAR(" = Some false) as -> by (by destruct q).
  cbn [mbind option_bind]. rewrite scan_GO_app, scan_GO_bucket_size.
  cbn [mbind option_bind]. by destruct (nullable info).
Qed.

Lemma scan_GO_join lines p :
  Forall (λ l, ∀ p, scan_GO p l = Some false) lines →
  is_Some (scan_GO p (join ("," +:+ nl) lines)).
Proof.
  intros Hall. revert p. induction Hall as [|l lines Hl _ IH]; intros p.
  - by eexists.
  - destruct lines as [|l' lines].
    + simpl. rewrite Hl. by eexists.
    + change (join ("," +:+ nl) (l :: l' :: lines))
        with (l +:+ ("," +:+ nl) +:+ join ("," +:+ nl) (l' :: lines)).
      rewrite scan_GO_app, Hl. cbn [mbind option_bind].
      rewrite scan_GO_app.
      assert (scan_GO false ("," +:+ nl) = Some false) as -> by done.
      cbn [mbind option_bind]. apply IH.
Qed.

Lemma scan_GO_create_statement stats :
  (∀ col, col ∈ stats.*1 → occurs "GO" col = false) →
  is_Some (scan_GO false (nl +:+ create_statement stats)).
Proof.
  intros Hfree. unfold create_statement.
  rewrite scan_GO_app. assert (scan_GO false nl = Some false) as -> by done.
  cbn [mbind option_bind]. rewrite scan_GO_app.
  assert (scan_GO false "CREATE TABLE [dbo].[BigCsvTable] (" = Some false) as -> by done.
  cbn [mbind option_bind]. rewrite scan_GO_app.
  assert (scan_GO false nl = Some false) as -> by done.
  cbn [mbind option_bind]. rewrite scan_GO_app.
  destruct (scan_GO_join ((λ kv, col_line kv.1 kv.2) <$> stats) false) as [q ->].
  { apply Forall_fmap, Forall_forall. intros [col info] Hin p. simpl.
    destruct (scan_GO_free col) as [q Hq].
    - apply Hfree, list_elem_of_fmap. by exists (col, info).
    - by eapply scan_GO_col_line. }
  cbn [mbind option_bind]. destruct q; by eexists.
Qed.

Lemma generate_create_table_sql_parts stats :
  generate_create_table_sql stats
  = (drop_statement +:+ nl) +:+ "GO" +:+ (nl +:+ create_statement stats).
Proof.
  unfold generate_create_table_sql, drop_statement, create_statement.
  rewrite !string_app_assoc. reflexivity.
Qed.

Lemma rstrip_by_app_keep p s t :
  rstrip_by p t = t → t ≠ EmptyString → rstrip_by p (s +:+ t) = s +:+ t.
Proof.
  intros Ht Hne. induction s as [|c s IH]; [done|].
  rewrite app_String, rstrip_by_cons, IH.
  destruct (s +:+ t) eqn:Heq; [|done]. by destruct s, t.
Qed.

Lemma strip_create_statement stats :
  strip (nl +:+ create_statement stats) = create_statement stats.
Proof.
  unfold strip, create_statement.
  rewrite <-!string_app_assoc, rstrip_by_app_keep by done.
  rewrite !string_app_assoc. reflexivity.
Qed.

Lemma batches_two stats :
  (∀ col, col ∈ stats.*1 → occurs "GO" col = false) →
  batches (generate_create_table_sql stats) = [drop_statement; create_statement stats].
Proof.
  intros Hfree. unfold batches.
  destruct (scan_GO_create_statement stats Hfree) as [q Hq].
  rewrite generate_create_table_sql_parts.
  rewrite (split_GO_once false false q) by done.
  cbn [fmap list_fmap]. rewrite strip_create_statement.
  rewrite filter_cons_True by done.
  rewrite filter_cons_True by done. done.
Qed.

(** X19. When no column name holds the letters [GO] in a row, the
    generated text is executed as exactly two statements, the conditional
    drop and then the [CREATE TABLE] with every column line. *)
Theorem batches_of_schema (stats : dict col_stats) :
  (∀ col, col ∈ stats.*1 → occurs "GO" col = false) →
  batches (generate_create_table_sql stats) = [drop_statement; create_statement stats].
Proof. apply batches_two. Qed.


Lemma batches_of_schema_witness :
  batches (generate_create_table_sql
             [("Id", {| max_len := 1; nullable := false |});
              ("Gold Owner", {| max_len := 12; nullable := true |})])
  = [drop_statement;
     create_statement [("Id", {| max_len := 1; nullable := false |});
                       ("Gold Owner", {| max_len := 12; nullable := true |})]].
Proof.
  apply (batches_of_schema [("Id", {| max_len := 1; nullable := false |});
                            ("Gold Owner", {| max_len := 12; nullable := true |})]).
  intros col [->|[->|[]%elem_of_nil]%elem_of_cons]%elem_of_cons; reflexivity.
Defined.


Lemma join_elem sep (l : list string) x :
  x ∈ l → ∃ before after, join sep l = before +:+ x +:+ after.
Proof.
  induction l as [|y l IH]; [by intros ?%elem_of_nil|].
  intros [->|Hin]%elem_of_cons.
  - destruct l as [|z l].
    + exists EmptyString, EmptyString. simpl. by rewrite string_app_nil_r_aux.
    + exists EmptyString, (sep +:+ join sep (z :: l)). done.
  - destruct (IH Hin) as (before & after & Heq).
    destruct l as [|z l]; [by apply elem_of_nil in Hin|].
    exists (y +:+ sep +:+ before), after.
    change (join sep (y :: z :: l)) with (y +:+ sep +:+ join sep (z :: l)).
    by rewrite Heq, !string_app_assoc.
Qed.

Lemma scan_GO_None_inside p before m after :
  scan_GO false m = None → scan_GO p (before +:+ m +:+ after) = None.
Proof.
  intros Hm. rewrite scan_GO_app.
  destruct (scan_GO p before) as [q|]; [|done]. simpl.
  by rewrite scan_GO_app, (scan_GO_weaken q m Hm).
Qed.

Lemma create_statement_occurs stats col :
  col ∈ stats.*1 → occurs "GO" col = true → occurs "GO" (create_statement stats) = true.
Proof.
  intros ([c info] & -> & Hin)%list_elem_of_fmap Hcol. simpl in Hcol.
  assert (scan_GO false (escape_ident c) = None) as Hesc.
  { rewrite scan_GO_escape. apply scan_GO_occurs. by right. }
  destruct (join_elem ("," +:+ nl) ((λ kv, col_line kv.1 kv.2) <$> stats)
              (col_line c info)) as (before & after & Heq).
  { apply list_elem_of_fmap. by exists (c, info). }
  assert (scan_GO false (create_statement stats) = None) as Hscan.
  { unfold create_statement. rewrite Heq. unfold col_line.
    set (size := bucket_size (max_len info)).
    set (null_sql := if nullable info then "NULL" else "NOT NULL").
    rewrite <-(scan_GO_None_inside false
      ("CREATE TABLE [dbo].[BigCsvTable] (" +:+ nl +:+ before +:+ "  [")
      (escape_ident c)
      ("] VARCHAR(" +:+ size +:+ ") " +:+ null_sql +:+ after +:+ nl +:+ ");") Hesc).
    f_equal. by rewrite !string_app_assoc. }
  apply scan_GO_occurs in Hscan as [[? _]|?]; done.
Qed.

(** X20. When a column name does hold the letters [GO] in a row, the
    [CREATE TABLE] statement of the generated text is not among the
    statements executed. *)
Theorem create_statement_cut (stats : dict col_stats) (col : string) :
  col ∈ stats.*1 → occurs "GO" col = true →
  create_statement stats ∉ batches (generate_create_table_sql stats).
Proof.
  intros Hin Hcol Hbatch%batches_free_of_GO_aux.
  by rewrite (create_statement_occurs stats col) in Hbatch.
Qed.

Lemma create_statement_cut_witness :
  create_statement [("CATEGORY", {| max_len := 3; nullable := true |})]
  ∉ batches (generate_create_table_sql [("CATEGORY", {| max_len := 3; nullable := true |})]).
Proof.
  apply (create_statement_cut [("CATEGORY", {| max_len := 3; nullable := true |})] "CATEGORY").
  - compute_done.
  - reflexivity.
Defined.


End batches_of_text.

(** ** The run of the profiling loader *)

Section batch_run.
Import Py Batch Spec.

#[local] Instance path_le_total : Total (λ a b : string * csv_file, String.le a.1 b.1).
Proof. intros a b. apply (total String.le). Qed.

#[local] Instance path_le_trans : Transitive (λ a b : string * csv_file, String.le a.1 b.1).
Proof. intros a b c. apply (transitivity (R:=String.le)). Qed.

Lemma sorted_nil matched : sorted matched = [] → matched = [].
Proof.
  intros Hs. symmetry. apply Permutation_nil_l. rewrite <-Hs. unfold sorted.
  by rewrite merge_sort_Permutation.
Qed.

(** X21. The manifest holds the matched files, each once, in ascending
    order of path; the run stops with [FileNotFoundError] exactly when
    nothing matched. *)
Theorem get_csv_files_manifest (matched : list (string * csv_file)) :
  match get_csv_files matched with
  | Ok files =>
      files ≡ₚ matched ∧ files ≠ [] ∧
      StronglySorted (λ a b, String.le a.1 b.1) files
  | Raise e => e = FileNotFoundError ∧ matched = []
  end.
Proof.
  unfold get_csv_files. destruct (sorted matched) as [|f files] eqn:Hs.
  - split; [done|]. by apply sorted_nil.
  - rewrite <-Hs. split; [apply merge_sort_Permutation|]. split; [by rewrite Hs|].
    apply StronglySorted_merge_sort; apply _.
Qed.



(** X23. A corpus that does not profile is never loaded: when a file
    lacks a column of the first file, or has it twice, the run stops with
    the exception of the profiler and the engine has executed nothing and
    appended nothing. *)
Theorem main_stops_before_engine (matched : list (string * csv_file)) (eng : engine) :
  ¬ Forall (carries (read_header_columns
                       (default (mkCsv [] []) (snd <$> head (sorted matched)))))
           (snd <$> sorted matched) →
  ∃ e, main matched eng = (eng, Raise e).
Proof.
  intros Hnot. unfold main, get_csv_files.
  destruct (sorted matched) as [|f fs] eqn:Hs; [by eexists|].
  destruct (profile_max_lengths _ _ _) as [stats|e] eqn:Hprofile; [|by eexists].
  destruct Hnot. by eapply profile_files_Ok.
Qed.

Lemma main_stops_before_engine_witness :
  ∃ e, main [("a.csv", mkCsv ["x"; "y"] [["1"; "2"]]);
             ("b.csv", mkCsv ["x"; "z"] [["3"; "4"]])]
            {| executed := []; table := [] |}
       = ({| executed := []; table := [] |}, Raise e).
Proof.
  apply (main_stops_before_engine
           [("a.csv", mkCsv ["x"; "y"] [["1"; "2"]]);
            ("b.csv", mkCsv ["x"; "z"] [["3"; "4"]])]).
  intros (_ & (Hb & _)%Forall_cons)%Forall_cons.
  destruct (Hb "y") as [j Hj]; [compute_done|]. discriminate Hj.
Defined.

End batch_run.

(** ** More on the statements of the bulk loader *)

Section bulk_statements.
Import Py Bulk Spec.

Lemma split_trailing_sep sep s :
  ∃ f fs, split sep (s +:+ String sep EmptyString) = (f :: fs) ++ [EmptyString].
Proof.
  induction s as [|c s (f & fs & IH)].
  - exists EmptyString, []. simpl. by rewrite decide_True.
  - rewrite app_String. cbn [split]. rewrite IH.
    destruct (decide (c = sep)).
    + by exists EmptyString, (f :: fs).
    + by exists (String c f), fs.
Qed.

Lemma rstrip_by_snoc_keep p s c :
  p c = false → rstrip_by p (s +:+ String c EmptyString) = s +:+ String c EmptyString.
Proof.
  intros Hc. apply rstrip_by_app_keep; [|done]. simpl. by rewrite Hc.
Qed.

(** X7. The header reader raises [ValueError] exactly when a field of
    the first line is empty once trimmed, and then returns nothing;
    otherwise it returns every trimmed field in order.  In particular a
    header line that ends with the delimiter is always refused. *)
Theorem read_header_columns_raises (first_csv : string) :
  let fields :=
    strip <$> split FIELDTERMINATOR (rstrip_crlf (readline first_csv)) in
  match read_header_columns first_csv with
  | Ok cols => cols = fields ∧ EmptyString ∉ fields
  | Raise e => e = ValueError ∧ EmptyString ∈ fields
  end
  ∧ ∀ line, "010"%char ∉ chars line →
      read_header_columns (line +:+ String FIELDTERMINATOR EmptyString) = Raise ValueError.
Proof.
  intros fields. split.
  - destruct (bulk_read_header_columns_spec first_csv) as (_ & Hraise & Hok).
    fold fields in Hraise, Hok.
    destruct (decide (EmptyString ∈ fields)) as [Hin|Hout].
    + by rewrite (Hraise Hin).
    + by rewrite (Hok Hout).
  - intros line Hline.
    set (text := line +:+ String FIELDTERMINATOR EmptyString).
    destruct (bulk_read_header_columns_spec text) as (_ & Hraise & _).
    apply Hraise. subst text.
    assert ("010"%char ∉ chars (line +:+ String FIELDTERMINATOR EmptyString)) as Hline'.
    { clear -Hline. induction line as [|c line IH]; simpl.
      - by intros [?|?%elem_of_nil]%elem_of_cons.
      - apply not_elem_of_cons in Hline as [??].
        apply not_elem_of_cons. split; [done|by apply IH]. }
    destruct (readline_line _ EmptyString Hline') as [-> _].
    unfold rstrip_crlf. rewrite rstrip_by_snoc_keep by done.
    destruct (split_trailing_sep FIELDTERMINATOR line) as (f & fs & ->).
    rewrite fmap_app. apply elem_of_app. right. by left.
Qed.

Lemma bulk_insert_sql_text schema table path :
  bulk_insert_sql schema table path
  = (nl +:+ "    BULK INSERT " +:+ qident schema +:+ "." +:+ qident table
        +:+ nl +:+ "    FROM ")
    +:+ qstr path
    +:+ (nl +:+ "    WITH (" +:+ nl +:+
         "        FIRSTROW = 2," +:+ nl +:+
         "    FIELDTERMINATOR = ','," +:+ nl +:+
         "    ROWTERMINATOR = '0x0a'," +:+ nl +:+
         "    BATCHSIZE = 50000," +:+ nl +:+
         "    MAXERRORS = 0," +:+ nl +:+
         "    KEEPNULLS," +:+ nl +:+
         "    TABLOCK" +:+ nl +:+
         "    );" +:+ nl +:+ "    ").
Proof.
  unfold bulk_insert_sql. rewrite !string_app_assoc. reflexivity.
Qed.

(** X24. Each [BULK INSERT] statement names its table by two quoted
    identifiers and its file by one quoted literal that reads back as
    the path, whatever apostrophes the path holds.  The options that
    follow are the same for every file: the first row skipped, the comma
    and the line feed as terminators, batches of 50000 rows, no error
    tolerated, nulls kept, and a table lock. *)
Theorem bulk_insert_names_file (schema table path : string) :
  let options :=
    nl +:+ "    WITH (" +:+ nl +:+
    "        FIRSTROW = 2," +:+ nl +:+
    "    FIELDTERMINATOR = ','," +:+ nl +:+
    "    ROWTERMINATOR = '0x0a'," +:+ nl +:+
    "    BATCHSIZE = 50000," +:+ nl +:+
    "    MAXERRORS = 0," +:+ nl +:+
    "    KEEPNULLS," +:+ nl +:+
    "    TABLOCK" +:+ nl +:+
    "    );" +:+ nl +:+ "    " in
  bulk_insert_sql schema table path
  = (nl +:+ "    BULK INSERT " +:+ qident schema +:+ "." +:+ qident table
        +:+ nl +:+ "    FROM ")
    +:+ qstr path +:+ options
  ∧ read_quoted (qstr path +:+ options) = Some (path, options)
  ∧ read_bracketed (qident schema +:+ "." +:+ qident table +:+ nl +:+ "    FROM ")
    = Some (schema, "." +:+ qident table +:+ nl +:+ "    FROM ")
  ∧ read_bracketed (qident table +:+ nl +:+ "    FROM ")
    = Some (table, nl +:+ "    FROM ").
Proof.
  intros options. split; [apply bulk_insert_sql_text|]. split; [|split].
  - unfold qstr. rewrite !string_app_assoc, !app_String.
    change (EmptyString +:+ ?t) with t. cbn [read_quoted].
    rewrite decide_True by done.
    apply read_delimited_replace. intros [s' Hs]. discriminate Hs.
  - unfold qident. rewrite !string_app_assoc, !app_String.
    change (EmptyString +:+ ?t) with t. cbn [read_bracketed].
    rewrite decide_True by done.
    apply read_delimited_replace. intros [s' Hs]. discriminate Hs.
  - unfold qident. rewrite !string_app_assoc, !app_String.
    change (EmptyString +:+ ?t) with t. cbn [read_bracketed].
    rewrite decide_True by done.
    apply read_delimited_replace. intros [s' Hs]. discriminate Hs.
Qed.

End bulk_statements.
